(** * A category and component-orientated logger

    Shallow embedding of package [logger] (the registry of loggers, the
    [Logx] entry points, the two log queues and the poller that
    serialises every write), followed by the properties proved of it.

    Conventions of the embedding:
    - a [*Logger] is an address [loc] into [heap]; the package variable
      [loggers : map[*Logger]bool] only ever stores [true], so it is the
      finite set of its keys;
    - an [io.Writer] is an interface value: [None] is the nil interface,
      [Some k] a sink named [k]; what the sinks have accepted is the
      list [output], in the order of the writes;
    - a channel is the list of the values sent on it and not yet
      received, oldest first;
    - a run-time panic is not recovered anywhere in the package, so an
      operation either finishes with a new state or panics;
    - Go's [int] is 64 bits wide; the counters below only ever grow by
      one per registration or log call and the widths are string
      lengths, so they are integers of [Z] here.

    The earlier version of the package, a wrapper of [log.Logger]
    (logger.go), is embedded in [Module Wrapper] with the same
    conventions. *)

From Stdlib Require Import ZArith Ascii String.
From stdpp Require Import base option list strings gmap fin_sets.

(** ** Outcomes of operations that may panic *)

Inductive panic : Type :=
  | NegativeRepeatCount   (* strings: negative Repeat count *)
  | NilDereference.       (* invalid memory address or nil pointer dereference *)

Inductive outcome (A : Type) : Type :=
  | Done (a : A)
  | Panicked (e : panic).

Arguments Done {A} a.
Arguments Panicked {A} e.

#[global] Instance outcome_ret : MRet outcome := @Done.

#[global] Instance outcome_bind : MBind outcome :=
  λ A B f m, match m with Done a => f a | Panicked e => Panicked e end.

Definition completes {A} (m : outcome A) : bool :=
  match m with Done _ => true | Panicked _ => false end.

(** ** The parts of Go's library the package calls *)

(** The line feed that [fmt.Fprintln] appends and that ["\n"] denotes in
    the source. *)
Definition nl : string := String "010"%char EmptyString.

(** [len(s)]: the number of bytes of [s]. *)
Definition len (s : string) : Z := Z.of_nat (String.length s).

Fixpoint repeat_string (s : string) (n : nat) : string :=
  match n with
  | O => ""
  | S n' => s +:+ repeat_string s n'
  end.

(** [strings.Repeat(s, count)]: panics when [count] is negative. *)
Definition strings_Repeat (s : string) (count : Z) : outcome string :=
  if decide (count < 0)%Z then Panicked NegativeRepeatCount
  else Done (repeat_string s (Z.to_nat count)).

Definition sink : Type := nat.
Definition os_Stdout : sink := 1%nat.
Definition os_Stderr : sink := 2%nat.

(** [fmt.Fprintln(w, s)]: formats [s] followed by a line feed and calls
    [w.Write]; the method call on a nil interface panics.  The error
    [Write] may return is dropped by the caller. *)
Definition fmt_Fprintln (w : option sink) (s : string)
    (out : list (sink * string)) : outcome (list (sink * string)) :=
  match w with
  | None => Panicked NilDereference
  | Some k => Done (out ++ [(k, s +:+ nl)])
  end.

(** What the package takes from [time] and [fmt] and does not inspect:
    the clock value [time.Now()] with its [Format] method, and the
    rendering of operands by [fmt.Sprint] and [fmt.Sprintf]. *)
Class GoStd : Type := {
  Time : Type;
  time_Format : Time → string → string;
  any : Type;
  fmt_Sprint : list any → string;
  fmt_Sprintf : string → list any → string;
}.

(** ** Components *)

Definition FormatterFunc : Type := string → string.

Definition BracketWrapper : FormatterFunc := λ s, "(" +:+ s +:+ ")".
Definition SquareBracketWrapper : FormatterFunc := λ s, "[" +:+ s +:+ "]".

Module Category.

Record t : Type := mk { Formatter : option FormatterFunc; Name : string }.

(** [if c.Name == "" || c.Formatter == nil { return c.Name }] *)
Definition Compose (c : t) : string :=
  match Formatter c with
  | Some f => if String.eqb (Name c) "" then Name c else f (Name c)
  | None => Name c
  end.

End Category.

Module Timestamp.

Record t : Type := mk { Format : string; Formatter : option FormatterFunc }.

Section Compose.
Context `{GoStd}.

(** [now] is the value [time.Now()] returns during the call. *)
Definition Compose (ts : t) (now : Time) : string :=
  if String.eqb (Format ts) "" then Format ts
  else
    let datetime := time_Format now (Format ts) in
    match Formatter ts with
    | None => datetime
    | Some f => f datetime
    end.

End Compose.

End Timestamp.

Module Message.

Record t : Type := mk { Formatter : option FormatterFunc }.

Definition Compose (m : t) (message : string) : string :=
  match Formatter m with
  | None => message
  | Some f => f message
  end.

End Message.

(** ** Loggers, queue items and the package state *)

Definition loc : Type := positive.

Record Logger : Type := mkLogger {
  Category : Category.t;
  Timestamp : Timestamp.t;
  Message : Message.t;
  Writer : option sink;
  Enabled : bool;
  id : Z;
  splunkEnabled : bool;
  counterEnabled : bool;
  counterName : string;
  count : Z;
}.

Record queueItem : Type := mkItem {
  writer : option sink;
  category : Category.t;
  message : string;
}.

Record State : Type := mkState {
  heap : gmap loc Logger;
  output : list (sink * string);
  loggers : gset loc;
  categoryPadding : bool;
  categoryGrouping : bool;
  bufferEnabled : bool;
  highestLoggerID : Z;
  logQueue : list queueItem;
  logQueueBuffer : list queueItem;
  exitCh : bool;            (* a stop signal is waiting to be received *)
  polling : bool;           (* the poller goroutine has not returned *)
  maxCategorySize : Z;
  previousCategory : string;
}.

(** Field updates. *)

Definition Logger_with_Writer (w : option sink) (l : Logger) : Logger :=
  mkLogger (Category l) (Timestamp l) (Message l) w (Enabled l) (id l)
    (splunkEnabled l) (counterEnabled l) (counterName l) (count l).

Definition Logger_with_Category (c : Category.t) (l : Logger) : Logger :=
  mkLogger c (Timestamp l) (Message l) (Writer l) (Enabled l) (id l)
    (splunkEnabled l) (counterEnabled l) (counterName l) (count l).

Definition Logger_with_Timestamp (t : Timestamp.t) (l : Logger) : Logger :=
  mkLogger (Category l) t (Message l) (Writer l) (Enabled l) (id l)
    (splunkEnabled l) (counterEnabled l) (counterName l) (count l).

Definition Logger_with_Message (m : Message.t) (l : Logger) : Logger :=
  mkLogger (Category l) (Timestamp l) m (Writer l) (Enabled l) (id l)
    (splunkEnabled l) (counterEnabled l) (counterName l) (count l).

Definition Logger_with_Enabled (e : bool) (l : Logger) : Logger :=
  mkLogger (Category l) (Timestamp l) (Message l) (Writer l) e (id l)
    (splunkEnabled l) (counterEnabled l) (counterName l) (count l).

Definition Logger_with_id (i : Z) (l : Logger) : Logger :=
  mkLogger (Category l) (Timestamp l) (Message l) (Writer l) (Enabled l) i
    (splunkEnabled l) (counterEnabled l) (counterName l) (count l).

Definition Logger_with_count (c : Z) (l : Logger) : Logger :=
  mkLogger (Category l) (Timestamp l) (Message l) (Writer l) (Enabled l) (id l)
    (splunkEnabled l) (counterEnabled l) (counterName l) c.

Definition with_heap (h : gmap loc Logger) (st : State) : State :=
  mkState h (output st) (loggers st) (categoryPadding st) (categoryGrouping st)
    (bufferEnabled st) (highestLoggerID st) (logQueue st) (logQueueBuffer st)
    (exitCh st) (polling st) (maxCategorySize st) (previousCategory st).

Definition with_written (out : list (sink * string)) (prev : string)
    (st : State) : State :=
  mkState (heap st) out (loggers st) (categoryPadding st) (categoryGrouping st)
    (bufferEnabled st) (highestLoggerID st) (logQueue st) (logQueueBuffer st)
    (exitCh st) (polling st) (maxCategorySize st) prev.

Definition with_highestLoggerID (i : Z) (st : State) : State :=
  mkState (heap st) (output st) (loggers st) (categoryPadding st)
    (categoryGrouping st) (bufferEnabled st) i (logQueue st)
    (logQueueBuffer st) (exitCh st) (polling st) (maxCategorySize st)
    (previousCategory st).

Definition with_loggers (ls : gset loc) (st : State) : State :=
  mkState (heap st) (output st) ls (categoryPadding st) (categoryGrouping st)
    (bufferEnabled st) (highestLoggerID st) (logQueue st) (logQueueBuffer st)
    (exitCh st) (polling st) (maxCategorySize st) (previousCategory st).

Definition with_padding (enabled : bool) (size : Z) (st : State) : State :=
  mkState (heap st) (output st) (loggers st) enabled (categoryGrouping st)
    (bufferEnabled st) (highestLoggerID st) (logQueue st) (logQueueBuffer st)
    (exitCh st) (polling st) size (previousCategory st).

Definition with_grouping (enabled : bool) (st : State) : State :=
  mkState (heap st) (output st) (loggers st) (categoryPadding st) enabled
    (bufferEnabled st) (highestLoggerID st) (logQueue st) (logQueueBuffer st)
    (exitCh st) (polling st) (maxCategorySize st) (previousCategory st).

Definition with_buffered (enabled : bool) (st : State) : State :=
  mkState (heap st) (output st) (loggers st) (categoryPadding st)
    (categoryGrouping st) enabled (highestLoggerID st) (logQueue st)
    (logQueueBuffer st) (exitCh st) (polling st) (maxCategorySize st)
    (previousCategory st).

Definition with_queues (q qb : list queueItem) (st : State) : State :=
  mkState (heap st) (output st) (loggers st) (categoryPadding st)
    (categoryGrouping st) (bufferEnabled st) (highestLoggerID st) q qb
    (exitCh st) (polling st) (maxCategorySize st) (previousCategory st).

Definition with_exit (signal running : bool) (st : State) : State :=
  mkState (heap st) (output st) (loggers st) (categoryPadding st)
    (categoryGrouping st) (bufferEnabled st) (highestLoggerID st) (logQueue st)
    (logQueueBuffer st) signal running (maxCategorySize st)
    (previousCategory st).

(** ** The poller's write step *)

(** [performWrite]: the padding is computed first, then the category is
    blanked when it repeats the previous one, then the line is written
    and the category name remembered. *)
Definition performWrite (st : State) (queueItem : queueItem) : outcome State :=
  let currentCategory := Category.Compose (category queueItem) in
  padding ← (if categoryPadding st
             then strings_Repeat " "
                    (maxCategorySize st - len currentCategory + 1)
             else Done "");
  let padding :=
    if negb (String.eqb (Category.Name (category queueItem)) "")
       && Bool.eqb (categoryPadding st) false
    then padding +:+ " " else padding in
  currentCategory ← (if categoryGrouping st
                        && String.eqb (previousCategory st)
                             (Category.Name (category queueItem))
                     then strings_Repeat " " (len currentCategory)
                     else Done currentCategory);
  let message := currentCategory +:+ padding +:+ message queueItem in
  out ← fmt_Fprintln (writer queueItem) message (output st);
  Done (with_written out (Category.Name (category queueItem)) st).

(** The three cases of the [select] in the loop of [startPoller], one
    receive at a time.  [None]: the case is not ready (nothing to
    receive, or the goroutine has returned). *)
Inductive channel : Type := LogQueue | LogQueueBuffer | ExitCh.

Definition poll (st : State) (c : channel) : option (outcome State) :=
  if polling st then
    match c with
    | LogQueue =>
        match logQueue st with
        | [] => None
        | q :: rest =>
            Some (performWrite (with_queues rest (logQueueBuffer st) st) q)
        end
    | LogQueueBuffer =>
        match logQueueBuffer st with
        | [] => None
        | q :: rest => Some (performWrite (with_queues (logQueue st) rest st) q)
        end
    | ExitCh =>
        if exitCh st then Some (Done (with_exit false false st)) else None
    end
  else None.

Definition StopPoller (st : State) : State := with_exit true (polling st) st.

(** ** The registry *)

(** [SetCategoryPadding]: the loop ranges over the keys of [loggers],
    in an order Go leaves open and the maximum does not depend on.
    Every registered address is allocated ([inv_ids] below); the [None]
    branch only keeps the fold total. *)
Definition SetCategoryPadding (st : State) (enabled : bool) : State :=
  let size :=
    if enabled then
      set_fold (λ (l : loc) (tempMax : Z),
                  match heap st !! l with
                  | Some lg =>
                      let categorySize := len (Category.Compose (Category lg)) in
                      if decide (categorySize > tempMax)%Z then categorySize
                      else tempMax
                  | None => tempMax
                  end) 0%Z (loggers st)
    else 0%Z in
  with_padding enabled size st.

Definition SetCategoryGrouping (st : State) (enabled : bool) : State :=
  with_grouping enabled st.

Definition SetBuffered (st : State) (useBuffer : bool) : State :=
  with_buffered useBuffer st.

(** [NewLogger]: the new [Logger] lives at an address not in use. *)
Definition NewLogger (st : State) (handle : option sink) (category : string)
    (enabled : bool) : State * loc :=
  let st := with_highestLoggerID (highestLoggerID st + 1) st in
  let newLogger :=
    {| Writer := handle;
       Enabled := enabled;
       id := highestLoggerID st;
       Category := Category.mk (Some SquareBracketWrapper) category;
       Timestamp := Timestamp.mk "01/02 15:04:05" None;
       Message := Message.mk None;
       splunkEnabled := false;
       counterEnabled := false;
       counterName := "";
       count := 0 |} in
  let p := fresh (dom (heap st)) in
  let st := with_loggers ({[p]} ∪ loggers st)
              (with_heap (<[p := newLogger]> (heap st)) st) in
  (SetCategoryPadding st (categoryPadding st), p).

(** One round of the loop of [AddLogger]; an address that is not
    allocated stands for a nil pointer. *)
Definition AddLogger_step (st : State) (newLogger : loc) : outcome State :=
  let st := with_highestLoggerID (highestLoggerID st + 1) st in
  match heap st !! newLogger with
  | None => Panicked NilDereference
  | Some lg =>
      let st := with_heap
                  (<[newLogger := Logger_with_id (highestLoggerID st) lg]>
                     (heap st)) st in
      let st := with_loggers ({[newLogger]} ∪ loggers st) st in
      Done (SetCategoryPadding st (categoryPadding st))
  end.

Fixpoint AddLogger (st : State) (newLoggers : list loc) : outcome State :=
  match newLoggers with
  | [] => Done st
  | newLogger :: rest => st' ← AddLogger_step st newLogger; AddLogger st' rest
  end.

(** A [Logger] built by a client as a composite literal, as in the
    README and in cmd/logger: the unexported fields cannot be named
    outside the package and hold their zero values. *)
Definition literal (c : Category.t) (t : Timestamp.t) (m : Message.t)
    (w : option sink) (e : bool) : Logger :=
  {| Category := c; Timestamp := t; Message := m; Writer := w; Enabled := e;
     id := 0; splunkEnabled := false; counterEnabled := false;
     counterName := ""; count := 0 |}.

Definition alloc (st : State) (lg : Logger) : State * loc :=
  let p := fresh (dom (heap st)) in
  (with_heap (<[p := lg]> (heap st)) st, p).

(** [SetEnabledByCategory] and [SetEnabledByID] assign through every
    registered pointer. *)
Definition SetEnabledByCategory (st : State) (enabled : bool)
    (categories : list string) : State :=
  with_heap
    (set_fold (λ (l : loc) (h : gmap loc Logger),
                 foldl (λ h c,
                          match h !! l with
                          | Some lg =>
                              if String.eqb (Category.Name (Category lg)) c
                              then <[l := Logger_with_Enabled enabled lg]> h
                              else h
                          | None => h
                          end) h categories)
       (heap st) (loggers st)) st.

Definition SetEnabledByID (st : State) (loggerID : Z) : State :=
  with_heap
    (set_fold (λ (l : loc) (h : gmap loc Logger),
                 match h !! l with
                 | Some lg =>
                     <[l := Logger_with_Enabled (bool_decide (id lg ≤ loggerID)%Z) lg]> h
                 | None => h
                 end)
       (heap st) (loggers st)) st.

(** The number of loggers that have been created. *)
Definition Count (st : State) : Z := Z.of_nat (size (loggers st)).

(** The state in which package initialisation starts: the variable
    declarations before [Internal], the two channels empty, and the
    poller started by [init]. *)
Definition declared : State :=
  {| heap := ∅; output := []; loggers := ∅;
     categoryPadding := true; categoryGrouping := true;
     bufferEnabled := false; highestLoggerID := -1;
     logQueue := []; logQueueBuffer := [];
     exitCh := false; polling := true;
     maxCategorySize := 0; previousCategory := "" |}.

(** [Internal = NewLogger(os.Stdout, "LOG", true)] *)
Definition initial : State := (NewLogger declared (Some os_Stdout) "LOG" true).1.
Definition Internal : loc := (NewLogger declared (Some os_Stdout) "LOG" true).2.

(** ** The methods of a logger and the package-level [Logx] functions *)

(** The send that ends [performLog]: on the buffered channel when
    buffering is enabled, on the unbuffered one otherwise.  The sender
    then waits for room, or for the poller; what it waits for is the
    item's turn in the list. *)
Definition send (st : State) (newMsg : queueItem) : State :=
  if bufferEnabled st
  then with_queues (logQueue st) (logQueueBuffer st ++ [newMsg]) st
  else with_queues (logQueue st ++ [newMsg]) (logQueueBuffer st) st.

Section Logx.
Context `{GoStd}.

(** [performLog]: [l] is dereferenced first; the queue item copies the
    writer and the category out of the logger. *)
Definition Logger_performLog (st : State) (l : loc) (now : Time)
    (message : string) (newline : bool) : outcome State :=
  match heap st !! l with
  | None => Panicked NilDereference
  | Some lg =>
      if Bool.eqb (Enabled lg) false then Done st
      else
        let message :=
          Timestamp.Compose (Timestamp lg) now +:+ " "
            +:+ Message.Compose (Message lg) message in
        let message := if newline then message +:+ nl else message in
        let newMsg :=
          {| writer := Writer lg; category := Category lg;
             message := message |} in
        let st := with_heap
                    (<[l := Logger_with_count (count lg + 1) lg]> (heap st))
                    st in
        Done (send st newMsg)
  end.

Definition Logger_Log (st : State) (l : loc) (now : Time) (msg : list any)
    : outcome State :=
  Logger_performLog st l now (fmt_Sprint msg) false.

Definition Logger_Logf (st : State) (l : loc) (now : Time) (format : string)
    (args : list any) : outcome State :=
  Logger_performLog st l now (fmt_Sprintf format args) false.

Definition Logger_Logln (st : State) (l : loc) (now : Time) (msg : list any)
    : outcome State :=
  Logger_performLog st l now (fmt_Sprint msg) true.

Definition Log (st : State) (logger : loc) (now : Time) (msg : list any)
    : outcome State :=
  Logger_performLog st logger now (fmt_Sprint msg) false.

Definition Logf (st : State) (logger : loc) (now : Time) (format : string)
    (args : list any) : outcome State :=
  Logger_performLog st logger now (fmt_Sprintf format args) false.

Definition Logln (st : State) (logger : loc) (now : Time) (msg : list any)
    : outcome State :=
  Logger_performLog st logger now (fmt_Sprint msg) true.

End Logx.

(** Assignments through a [*Logger]. *)
Definition assign (f : Logger → Logger) (st : State) (l : loc) : outcome State :=
  match heap st !! l with
  | None => Panicked NilDereference
  | Some lg => Done (with_heap (<[l := f lg]> (heap st)) st)
  end.

Definition Logger_Enable (st : State) (l : loc) : outcome State :=
  assign (Logger_with_Enabled true) st l.

Definition Logger_Disable (st : State) (l : loc) : outcome State :=
  assign (Logger_with_Enabled false) st l.

(** [l.Writer = w], the way a destination is replaced
    ([File.Writer = fileWriter] in cmd/logger). *)
Definition Logger_SetOutput (st : State) (l : loc) (w : option sink)
    : outcome State :=
  assign (Logger_with_Writer w) st l.

(** [l.Category = c], the assignment the README makes under
    "Modifying existing loggers".  Nothing else is updated. *)
Definition Logger_SetCategory (st : State) (l : loc) (c : Category.t)
    : outcome State :=
  assign (Logger_with_Category c) st l.

(** [l.Timestamp = t] and [l.Message = m], the other two components. *)
Definition Logger_SetTimestamp (st : State) (l : loc) (t : Timestamp.t)
    : outcome State :=
  assign (Logger_with_Timestamp t) st l.

Definition Logger_SetMessage (st : State) (l : loc) (m : Message.t)
    : outcome State :=
  assign (Logger_with_Message m) st l.


(** ** Programs over the package *)

Section Calls.
Context `{GoStd}.

(** What a client does, one call at a time: the exported functions and
    methods, a composite literal for a logger of its own, the
    assignment of an exported field of a logger (its destination, its
    category, its timestamp or its message component; [Enabled] is what
    [Enable] and [Disable] assign), and the receive of the poller on one
    of its three channels. *)
Inductive call : Type :=
  | CallNewLogger (handle : option sink) (category : string) (enabled : bool)
  | CallLiteral (c : Category.t) (t : Timestamp.t) (m : Message.t)
      (w : option sink) (e : bool)
  | CallAddLogger (newLoggers : list loc)
  | CallSetCategoryPadding (enabled : bool)
  | CallSetCategoryGrouping (enabled : bool)
  | CallSetBuffered (useBuffer : bool)
  | CallSetEnabledByCategory (enabled : bool) (categories : list string)
  | CallSetEnabledByID (loggerID : Z)
  | CallLog (l : loc) (now : Time) (msg : list any)
  | CallLogf (l : loc) (now : Time) (format : string) (args : list any)
  | CallLogln (l : loc) (now : Time) (msg : list any)
  | CallEnable (l : loc)
  | CallDisable (l : loc)
  | CallSetOutput (l : loc) (w : option sink)
  | CallSetCategory (l : loc) (c : Category.t)
  | CallSetTimestamp (l : loc) (t : Timestamp.t)
  | CallSetMessage (l : loc) (m : Message.t)
  | CallStopPoller
  | Poll (c : channel).

Definition exec (st : State) (c : call) : outcome State :=
  match c with
  | CallNewLogger handle category enabled =>
      Done (NewLogger st handle category enabled).1
  | CallLiteral c t m w e => Done (alloc st (literal c t m w e)).1
  | CallAddLogger newLoggers => AddLogger st newLoggers
  | CallSetCategoryPadding enabled => Done (SetCategoryPadding st enabled)
  | CallSetCategoryGrouping enabled => Done (SetCategoryGrouping st enabled)
  | CallSetBuffered useBuffer => Done (SetBuffered st useBuffer)
  | CallSetEnabledByCategory enabled categories =>
      Done (SetEnabledByCategory st enabled categories)
  | CallSetEnabledByID loggerID => Done (SetEnabledByID st loggerID)
  | CallLog l now msg => Logger_Log st l now msg
  | CallLogf l now format args => Logger_Logf st l now format args
  | CallLogln l now msg => Logger_Logln st l now msg
  | CallEnable l => Logger_Enable st l
  | CallDisable l => Logger_Disable st l
  | CallSetOutput l w => Logger_SetOutput st l w
  | CallSetCategory l c => Logger_SetCategory st l c
  | CallSetTimestamp l t => Logger_SetTimestamp st l t
  | CallSetMessage l m => Logger_SetMessage st l m
  | CallStopPoller => Done (StopPoller st)
  | Poll c => match poll st c with Some r => r | None => Done st end
  end.

Fixpoint run (st : State) (cs : list call) : outcome State :=
  match cs with
  | [] => Done st
  | c :: cs' => st' ← exec st c; run st' cs'
  end.

(** The addresses a call registers, in the order it registers them. *)
Definition registers (st : State) (c : call) : list loc :=
  match c with
  | CallNewLogger handle category enabled =>
      [(NewLogger st handle category enabled).2]
  | CallAddLogger newLoggers => newLoggers
  | _ => []
  end.

Fixpoint registrations (st : State) (cs : list call) : list loc :=
  match cs with
  | [] => []
  | c :: cs' =>
      registers st c ++
        match exec st c with
        | Done st' => registrations st' cs'
        | Panicked _ => []
        end
  end.

(** The states a program can be in: those some sequence of calls leads
    to from the declarations of the package. *)
Definition reachable (st : State) : Prop := ∃ cs, run declared cs = Done st.

(** Whether [maxCategorySize] is up to date after a call, given whether
    it was before: [SetCategoryPadding], [NewLogger] and [AddLogger] of
    at least one logger end with its computation; the assignment of a
    category is followed by none; the other calls leave the registered
    categories and the width as they are. *)
Definition width_step (current : bool) (c : call) : bool :=
  match c with
  | CallNewLogger _ _ _ | CallSetCategoryPadding _
  | CallAddLogger (_ :: _) => true
  | CallSetCategory _ _ => false
  | _ => current
  end.

(** No category has been assigned since the width was last computed. *)
Definition width_current (cs : list call) : bool := foldl width_step true cs.

End Calls.

(** ** A reference instance of the library interface

    Operands are strings, which [fmt.Sprint] concatenates without
    separating spaces, and [fmt.Sprintf] is given for the verbs [%v] and
    [%s] with as many operands as verbs.  A clock value is a month, a
    day and a time of day, and [Format] renders the zero-padded tokens
    [01] (month), [02] (day), [15] (hour), [04] (minute) and [05]
    (second) of Go's reference time, copying every other byte.  This is
    enough for the layout [NewLogger] installs and for running the
    package on examples; it is not a model of the remaining verbs and
    tokens. *)

Record civil : Type := mkCivil {
  month : Z; day : Z; hour : Z; minute : Z; second : Z;
}.

Definition digit (n : Z) : ascii := ascii_of_nat (48 + Z.to_nat (n mod 10)).

Definition two_digits (n : Z) : string :=
  String (digit (n / 10)) (String (digit n) EmptyString).

Fixpoint civil_Format (t : civil) (layout : string) : string :=
  match layout with
  | EmptyString => EmptyString
  | String a rest =>
      match rest with
      | String b rest' =>
          if Ascii.eqb a "0" && Ascii.eqb b "1" then two_digits (month t) +:+ civil_Format t rest'
          else if Ascii.eqb a "0" && Ascii.eqb b "2" then two_digits (day t) +:+ civil_Format t rest'
          else if Ascii.eqb a "1" && Ascii.eqb b "5" then two_digits (hour t) +:+ civil_Format t rest'
          else if Ascii.eqb a "0" && Ascii.eqb b "4" then two_digits (minute t) +:+ civil_Format t rest'
          else if Ascii.eqb a "0" && Ascii.eqb b "5" then two_digits (second t) +:+ civil_Format t rest'
          else String a (civil_Format t rest)
      | EmptyString => String a EmptyString
      end
  end.

Fixpoint verbs_Sprintf (format : string) (args : list string) : string :=
  match format with
  | EmptyString => EmptyString
  | String a rest =>
      match rest, args with
      | String b rest', arg :: args' =>
          if Ascii.eqb a "%" && (Ascii.eqb b "v" || Ascii.eqb b "s")
          then arg +:+ verbs_Sprintf rest' args'
          else String a (verbs_Sprintf rest args)
      | _, _ => String a (verbs_Sprintf rest args)
      end
  end.

Definition reference : GoStd :=
  {| Time := civil;
     time_Format := civil_Format;
     any := string;
     fmt_Sprint := λ msg, foldr String.append "" msg;
     fmt_Sprintf := verbs_Sprintf |}.

(** ** Notions the statements use *)

(** The category text and the padding of the line [performWrite]
    assembles for an item, read off its branches. *)
Definition writtenCategory (st : State) (q : queueItem) : string :=
  if categoryGrouping st
     && String.eqb (previousCategory st) (Category.Name (category q))
  then repeat_string " " (String.length (Category.Compose (category q)))
  else Category.Compose (category q).

Definition writtenPadding (st : State) (q : queueItem) : string :=
  if categoryPadding st
  then repeat_string " "
         (Z.to_nat (maxCategorySize st - len (Category.Compose (category q)) + 1))
  else if String.eqb (Category.Name (category q)) "" then "" else " ".

(** The padding count is the only thing besides a nil writer that can
    stop the write. *)
Definition paddingFits (st : State) (q : queueItem) : Prop :=
  categoryPadding st = true →
  (0 ≤ maxCategorySize st - len (Category.Compose (category q)) + 1)%Z.

Definition counted (st : State) (l : loc) (lg : Logger) : State :=
  with_heap (<[l := Logger_with_count (count lg + 1) lg]> (heap st)) st.

(** Submissions sent and not yet received by the poller. *)
Definition pending (st : State) : nat :=
  (length (logQueue st) + length (logQueueBuffer st))%nat.

(** [m] is the greatest composed-category length among the registered
    loggers of [st], and 0 when there is none. *)
Definition widest (st : State) (m : Z) : Prop :=
  (0 ≤ m)%Z ∧
  (∀ p lg, p ∈ loggers st → heap st !! p = Some lg →
           (len (Category.Compose (Category lg)) ≤ m)%Z) ∧
  (m = 0%Z ∨ ∃ p lg, p ∈ loggers st ∧ heap st !! p = Some lg ∧
                      len (Category.Compose (Category lg)) = m).

(** Heaps that differ at most in the fields the registry does not
    depend on. *)
Definition heap_rel (h h' : gmap loc Logger) : Prop :=
  ∀ p, option_Forall2
         (λ a b, id b = id a ∧ Category b = Category a) (h !! p) (h' !! p).

(** The invariant of the registry, against the list [evs] of the
    addresses registered so far, oldest first: the counter is the
    number of registrations less one, the registered set is the set of
    addresses in the list, and the identity of a registered logger is
    the position of its last registration. *)
Record registry_inv (st : State) (evs : list loc) : Prop := {
  inv_highest : highestLoggerID st = (Z.of_nat (length evs) - 1)%Z;
  inv_loggers : ∀ p, p ∈ loggers st ↔ p ∈ evs;
  inv_ids : ∀ p, p ∈ loggers st →
    ∃ lg, heap st !! p = Some lg ∧ (0 ≤ id lg)%Z ∧
          evs !! Z.to_nat (id lg) = Some p ∧
          ∀ j, (Z.to_nat (id lg) < j)%nat → evs !! j ≠ Some p;
}.

(** The width is up to date: with padding enabled it is the greatest
    registered one. *)
Definition width_inv (st : State) : Prop :=
  categoryPadding st = true → widest st (maxCategorySize st).

(** States with the same registry: what the invariant reads is the
    same, a registered logger keeping its identity and its category. *)
Definition same_registry (st st' : State) : Prop :=
  loggers st' = loggers st ∧
  highestLoggerID st' = highestLoggerID st ∧
  categoryPadding st' = categoryPadding st ∧
  maxCategorySize st' = maxCategorySize st ∧
  ∀ p lg, p ∈ loggers st → heap st !! p = Some lg →
          ∃ lg', heap st' !! p = Some lg' ∧ id lg' = id lg ∧
                 Category lg' = Category lg.

(** Registration: what [NewLogger] and one round of [AddLogger] have in
    common once the logger and its address are known. *)
Definition registered_at (st : State) (p : loc) (lg : Logger) : State :=
  let st := with_highestLoggerID (highestLoggerID st + 1) st in
  let st := with_loggers ({[p]} ∪ loggers st)
              (with_heap (<[p := lg]> (heap st)) st) in
  SetCategoryPadding st (categoryPadding st).

Definition enabledByIdentity (st : State) : list (Z * bool) :=
  (λ pl : loc * Logger, (id pl.2, Enabled pl.2)) <$> map_to_list (heap st).

Section Submitted.
Context `{GoStd}.

(** The text [performLog] composes and the item it sends. *)
Definition composed (lg : Logger) (now : Time) (message : string)
    (newline : bool) : string :=
  let message :=
    Timestamp.Compose (Timestamp lg) now +:+ " "
      +:+ Message.Compose (Message lg) message in
  if newline then message +:+ nl else message.

Definition submitted (lg : Logger) (now : Time) (message : string)
    (newline : bool) : queueItem :=
  {| writer := Writer lg; category := Category lg;
     message := composed lg now message newline |}.

End Submitted.

(** ** Programs and values of the examples *)

(** The clock value of the examples: 27 April, 15:25:47. *)
Definition spring : @Time reference := mkCivil 4 27 15 25 47.

(** The logger [Internal] as package initialisation leaves it. *)
Definition internalLogger : Logger :=
  {| Writer := Some os_Stdout; Enabled := true; id := 0;
     Category := Category.mk (Some SquareBracketWrapper) "LOG";
     Timestamp := Timestamp.mk "01/02 15:04:05" None;
     Message := Message.mk None;
     splunkEnabled := false; counterEnabled := false;
     counterName := ""; count := 0 |}.

(** The program of cmd/logger up to a first [File.Log], had the writer
    not been assigned before it. *)
Definition fileProgram : list (@call reference) :=
  [CallNewLogger (Some os_Stdout) "LOG" true;
   CallNewLogger None "FILE" true;
   CallLog 2%positive spring ["this message has been written to a file"]].

Definition fileItem : queueItem :=
  {| writer := None;
     category := Category.mk (Some SquareBracketWrapper) "FILE";
     message := "04/27 15:25:47 this message has been written to a file" |}.

(** A logger built as a literal and used without [AddLogger], as
    [Plain] in cmd/logger, here with the category of the README. *)
Definition literalProgram : list (@call reference) :=
  [CallNewLogger (Some os_Stdout) "LOG" true;
   CallLiteral (Category.mk (Some SquareBracketWrapper) "ERROR")
     (Timestamp.mk "01/02 15:04:05" None) (Message.mk None)
     (Some os_Stderr) true;
   CallLog 2%positive spring ["another error log..."]].

Definition literalItem : queueItem :=
  {| writer := Some os_Stderr;
     category := Category.mk (Some SquareBracketWrapper) "ERROR";
     message := "04/27 15:25:47 another error log..." |}.

(** The README's "Modifying existing loggers", as far as the category
    goes: a first line, then the category [(CRITICAL)] and a second
    call. *)
Definition modifyProgram : list (@call reference) :=
  [CallNewLogger (Some os_Stdout) "LOG" true;
   CallNewLogger (Some os_Stderr) "ERROR" true;
   CallLog 2%positive spring ["original format"];
   Poll LogQueue].

Definition modified : outcome State :=
  st ← run declared modifyProgram;
  st ← Logger_SetCategory st 2%positive
         (Category.mk (Some BracketWrapper) "CRITICAL");
  @Logger_Log reference st 2%positive spring
    ["new Timestamp Format & Category"].





Definition errorItem : queueItem :=
  {| writer := Some os_Stderr;
     category := Category.mk (Some SquareBracketWrapper) "LOG";
     message := "04/27 15:25:47 example error message no. 1" |}.

(** Loggers whose composed categories have lengths 3, 7 and 0. *)
Definition threeWidths : list (@call reference) :=
  [CallNewLogger (Some os_Stdout) "A" true;
   CallNewLogger (Some os_Stderr) "ERROR" true;
   CallNewLogger (Some os_Stdout) "" true;
   CallSetCategoryGrouping false;
   CallLog 1%positive spring ["one"];
   CallLog 2%positive spring ["two"];
   CallLog 3%positive spring ["three"];
   Poll LogQueue; Poll LogQueue; Poll LogQueue].

(** The grouping scenario: two calls on [ERROR], one on [INFO], one on
    [ERROR] again. *)
Definition groupingProgram : list (@call reference) :=
  [CallNewLogger (Some os_Stdout) "INFO" true;
   CallNewLogger (Some os_Stderr) "ERROR" true;
   CallLog 2%positive spring ["no. 1"]; Poll LogQueue;
   CallLog 2%positive spring ["no. 2"]; Poll LogQueue;
   CallLog 1%positive spring ["between"]; Poll LogQueue;
   CallLog 2%positive spring ["no. 3"]; Poll LogQueue].

(** Four loggers, identities 0 to 3. *)
Definition fourLoggers : list (@call reference) :=
  [CallNewLogger (Some os_Stdout) "LOG" true;
   CallNewLogger (Some os_Stdout) "INFO" false;
   CallNewLogger (Some os_Stderr) "ERROR" true;
   CallNewLogger (Some os_Stdout) "DEBUG" false].

(** A logger made by [NewLogger] and handed to [AddLogger]. *)
Definition registeredTwice : list (@call reference) :=
  [CallNewLogger (Some os_Stdout) "LOG" true;
   CallNewLogger (Some os_Stdout) "INFO" true;
   CallAddLogger [2%positive]].

(** ** Notions of the further properties *)

Definition matches (categories : list string) (lg : Logger) : bool :=
  existsb (String.eqb (Category.Name (Category lg))) categories.

Section RunNotions.
Context `{GoStd}.

(** The logger a call logs on, if it is a log call. *)
Definition logs_on (c : call) : option loc :=
  match c with
  | CallLog l _ _ | CallLogf l _ _ _ | CallLogln l _ _ => Some l
  | _ => None
  end.

(** 1 when [c], made in [st], is a log call on [l] that [l] accepts. *)
Definition accepted_by (st : State) (c : call) (l : loc) : nat :=
  match logs_on c, heap st !! l with
  | Some l', Some lg => if decide (l' = l) then if Enabled lg then 1 else 0 else 0
  | _, _ => 0
  end.

Definition submitted_by (st : State) (c : call) : nat :=
  match logs_on c with
  | Some l => accepted_by st c l
  | None => 0
  end.


Fixpoint submissions (st : State) (cs : list call) : nat :=
  match cs with
  | [] => 0
  | c :: cs' =>
      submitted_by st c +
        match exec st c with
        | Done st' => submissions st' cs'
        | Panicked _ => 0
        end
  end.

Definition is_poll (c : call) : bool :=
  match c with Poll _ => true | _ => false end.

Fixpoint polls (cs : list call) : nat :=
  match cs with
  | [] => 0
  | c :: cs' => (if is_poll c then 1 else 0) + polls cs'
  end.

End RunNotions.

(** The items waiting on a channel; the stop channel carries none. *)
Definition waiting (st : State) (ch : channel) : list queueItem :=
  match ch with
  | LogQueue => logQueue st
  | LogQueueBuffer => logQueueBuffer st
  | ExitCh => []
  end.

Definition other (ch : channel) : channel :=
  match ch with
  | LogQueue => LogQueueBuffer
  | LogQueueBuffer => LogQueue
  | ExitCh => ExitCh
  end.

(** How one call changes the loggers in memory: none is removed, a new
    one starts with the count 0, and a count grows by one exactly on an
    accepted log call. *)
Definition counts_step (st st' : State) (n : loc → nat) : Prop :=
  ∀ l, match heap st !! l with
       | Some lg => ∃ lg', heap st' !! l = Some lg' ∧
                           count lg' = (count lg + Z.of_nat (n l))%Z
       | None => ∀ lg', heap st' !! l = Some lg' → count lg' = 0%Z
       end.

(** What one call does to the output and to the queues: [lines] is
    what it writes. *)
Record written_step (st st' : State) (polled : bool) (sent : nat)
    (lines : list (sink * string)) : Prop := {
  ws_output : output st' = output st ++ lines;
  ws_lines : (length lines ≤ if polled then 1 else 0)%nat;
  ws_stopped : polling st = false → lines = [] ∧ polling st' = false;
  ws_pending : (length lines + pending st' = pending st + sent)%nat;
}.

(** ** Programs and values of the further examples *)

(** Two loggers, three log calls left unreceived. *)
Definition backlogProgram : list (@call reference) :=
  [CallNewLogger (Some os_Stdout) "INFO" true;
   CallNewLogger (Some os_Stderr) "ERROR" true;
   CallLog 2%positive spring ["no. 1"];
   CallDisable 1%positive;
   CallLog 1%positive spring ["dropped"];
   CallLogln 2%positive spring ["no. 2"];
   CallEnable 1%positive;
   CallLogf 1%positive spring "%v" ["kept"]].

Definition backlog : State :=
  match run declared backlogProgram with
  | Done st => st
  | Panicked _ => declared
  end.

Definition backlogItems : list queueItem :=
  [{| writer := Some os_Stderr;
      category := Category.mk (Some SquareBracketWrapper) "ERROR";
      message := "04/27 15:25:47 no. 1" |};
   {| writer := Some os_Stderr;
      category := Category.mk (Some SquareBracketWrapper) "ERROR";
      message := "04/27 15:25:47 no. 2" +:+ nl |};
   {| writer := Some os_Stdout;
      category := Category.mk (Some SquareBracketWrapper) "INFO";
      message := "04/27 15:25:47 kept" |}].

(** The same followed by one receive, the stop signal and its receive. *)
Definition stoppedProgram : list (@call reference) :=
  backlogProgram ++ [Poll LogQueue; CallStopPoller; Poll ExitCh].

Definition stopped : State :=
  match run declared stoppedProgram with
  | Done st => st
  | Panicked _ => declared
  end.

Definition afterStop : list (@call reference) :=
  [CallLog 2%positive spring ["too late"]; Poll LogQueue; Poll LogQueue].

(** A logger of the package and one built as a literal. *)
Definition literalState : State :=
  match run declared literalProgram with
  | Done st => st
  | Panicked _ => declared
  end.

(** ** The earlier package: a wrapper of [log.Logger] (logger.go)

    What it takes from [log] and [strings] and does not define:
    the header [formatHeader] of [log.Logger] puts before a message, from
    the prefix, the flags and the time of the call, and the Unicode
    fallbacks [TrimFunc(s, unicode.IsSpace)] and
    [TrimRightFunc(s, unicode.IsSpace)] that [strings.TrimSpace] calls
    when it meets a byte outside ASCII. *)
Class GoLog `{GoStd} : Type := {
  log_formatHeader : string → Z → Time → string;
  strings_TrimFunc_IsSpace : string → string;
  strings_TrimRightFunc_IsSpace : string → string;
}.

Module Wrapper.

Definition MsgFormatter : Type := string → string.

(** [log.Ldate|log.Ltime] *)
Definition log_Ldate_Ltime : Z := 3.

(** The state of a [log.Logger] the package reads or sets. *)
Record log_Logger : Type := mkLog {
  prefix : string;
  flag : Z;
  out : option sink;
}.

Definition log_with_prefix (p : string) (l : log_Logger) : log_Logger :=
  mkLog p (flag l) (out l).

Definition log_with_flag (f : Z) (l : log_Logger) : log_Logger :=
  mkLog (prefix l) f (out l).

Definition log_with_out (w : option sink) (l : log_Logger) : log_Logger :=
  mkLog (prefix l) (flag l) w.

Record Logger : Type := mkLogger {
  logger : loc;
  enabled : bool;
  msgPrefix : string;
  msgFormatter : option MsgFormatter;
}.

(** [logs] holds the [log.Logger]s by address.  The keys of the
    package's [loggers] map are the addresses of the copies
    [NewLogger] leaves behind ([&newLogger]); [loggers] gives, for each
    key, the copy at it (the map's values are all [true]). *)
Record State : Type := mkState {
  logs : gmap loc log_Logger;
  loggers : gmap loc Logger;
  prefixPaddingEnabled : bool;
  prefixMaxPadding : Z;
  output : list (sink * string);
}.

Definition declared : State :=
  {| logs := ∅; loggers := ∅; prefixPaddingEnabled := true;
     prefixMaxPadding := 0; output := [] |}.

(** One call of [Write] on the writer [k]. *)
Definition written (st : State) (k : sink) (buf : string) : State :=
  mkState (logs st) (loggers st) (prefixPaddingEnabled st)
    (prefixMaxPadding st) (output st ++ [(k, buf)]).

(** [strings.TrimSpace], on bytes as in its source: a first loop over
    leading ASCII space, a second over trailing ASCII space, and the
    Unicode functions as soon as either meets a byte outside ASCII. *)
Definition asciiSpace (c : ascii) : bool :=
  let n := nat_of_ascii c in
  (Nat.leb 9 n && Nat.leb n 13) || Nat.eqb n 32.

Definition outside_ascii (c : ascii) : bool := Nat.leb 128 (nat_of_ascii c).

Fixpoint strip_right (s : string) : string :=
  match s with
  | EmptyString => EmptyString
  | String c s' =>
      match strip_right s' with
      | EmptyString => if asciiSpace c then EmptyString else String c EmptyString
      | r => String c r
      end
  end.

Fixpoint last_byte (s : string) : option ascii :=
  match s with
  | EmptyString => None
  | String c EmptyString => Some c
  | String _ s' => last_byte s'
  end.

Section Trim.
Context `{GoLog}.

Definition trim_end (s : string) : string :=
  let r := strip_right s in
  match last_byte r with
  | Some c => if outside_ascii c then strings_TrimRightFunc_IsSpace r else r
  | None => r
  end.

Fixpoint strings_TrimSpace (s : string) : string :=
  match s with
  | EmptyString => EmptyString
  | String c s' =>
      if outside_ascii c then strings_TrimFunc_IsSpace s
      else if asciiSpace c then strings_TrimSpace s'
      else trim_end s
  end.

(** One round of the loop of [SetPrefixPadding], on the copy [l]. *)
Definition repad (enabled : bool) (max : Z) (l : Logger)
    (logs : gmap loc log_Logger) : outcome (gmap loc log_Logger) :=
  match logs !! logger l with
  | None => Panicked NilDereference
  | Some ll =>
      let resetPrefix := strings_TrimSpace (prefix ll) in
      resetPrefix ←
        (if enabled
         then
           let paddingCount := (max - len resetPrefix)%Z in
           pad ← strings_Repeat " " paddingCount;
           Done (resetPrefix +:+ pad)
         else
           Done (if negb (String.eqb resetPrefix "")
                 then resetPrefix +:+ " " else resetPrefix));
      Done (<[logger l := log_with_prefix resetPrefix ll]> logs)
  end.

(** The loop [for l := range loggers], over the copies in the order
    the runtime presents them. *)
Fixpoint padding_loop (enabled : bool) (max : Z) (ls : list Logger)
    (logs : gmap loc log_Logger) : outcome (gmap loc log_Logger) :=
  match ls with
  | [] => Done logs
  | l :: ls' =>
      logs ← repad enabled max l logs; padding_loop enabled max ls' logs
  end.

Definition range (loggers : gmap loc Logger) : list Logger :=
  (map_to_list loggers).*2.

Definition SetPrefixPadding (st : State) (enabled : bool) : outcome State :=
  logs' ← padding_loop enabled (prefixMaxPadding st) (range (loggers st))
            (logs st);
  Done (mkState logs' (loggers st) enabled (prefixMaxPadding st) (output st)).

(** [NewLogger] returns a copy of the [Logger] whose address it has
    put in [loggers]; both point to the one [log.Logger]. *)
Definition NewLogger (st : State) (handle : option sink)
    (loggerPrefix : string) (enabled : bool) : outcome (State * Logger) :=
  let loggerPrefix :=
    if negb (String.eqb loggerPrefix "")
    then "[" +:+ loggerPrefix +:+ "] " else loggerPrefix in
  let l := fresh (dom (logs st)) in
  let newLogger := mkLogger l enabled "" None in
  let st := mkState (<[l := mkLog loggerPrefix log_Ldate_Ltime handle]> (logs st))
              (<[fresh (dom (loggers st)) := newLogger]> (loggers st))
              (prefixPaddingEnabled st)
              (if decide (len loggerPrefix > prefixMaxPadding st)%Z
               then len loggerPrefix else prefixMaxPadding st)
              (output st) in
  st ← SetPrefixPadding st (prefixPaddingEnabled st);
  Done (st, newLogger).

(** [Print(msg)] of [log.Logger]: [fmt.Sprint] of the one string is the
    string; the header, the message, and a line feed unless the message
    ends with one go to the writer in one [Write].  The writers here are
    other than [io.Discard], which [log] skips. *)
Fixpoint ends_with_newline (s : string) : bool :=
  match s with
  | EmptyString => false
  | String c EmptyString => Ascii.eqb c "010"
  | String _ s' => ends_with_newline s'
  end.

Definition log_Print (st : State) (l : loc) (now : Time) (s : string)
    : outcome State :=
  match logs st !! l with
  | None => Panicked NilDereference
  | Some ll =>
      let buf := log_formatHeader (prefix ll) (flag ll) now +:+ s
                   +:+ (if ends_with_newline s then "" else nl) in
      match out ll with
      | None => Panicked NilDereference
      | Some k => Done (written st k buf)
      end
  end.

Definition performLog (st : State) (l : Logger) (now : Time) (msg : string)
    (newline : bool) : outcome State :=
  if Bool.eqb (enabled l) false then Done st
  else
    let msg := match msgFormatter l with
               | Some f => f msg
               | None => msg
               end in
    let msg := msgPrefix l +:+ msg in
    let msg := if newline then msg +:+ nl +:+ nl else msg in
    log_Print st (logger l) now msg.

Definition Log (st : State) (l : Logger) (now : Time) (msg : list any)
    : outcome State :=
  performLog st l now (fmt_Sprint msg) false.

Definition Logf (st : State) (l : Logger) (now : Time) (format : string)
    (args : list any) : outcome State :=
  performLog st l now (fmt_Sprintf format args) false.

Definition Logln (st : State) (l : Logger) (now : Time) (msg : list any)
    : outcome State :=
  performLog st l now (fmt_Sprint msg) true.

End Trim.

(** The methods that only touch the [Logger] they are called on. *)
Definition Enable (l : Logger) : Logger :=
  mkLogger (logger l) true (msgPrefix l) (msgFormatter l).

Definition Disable (l : Logger) : Logger :=
  mkLogger (logger l) false (msgPrefix l) (msgFormatter l).

Definition MessagePrefix (l : Logger) : string := msgPrefix l.

Definition SetMessagePrefix (l : Logger) (messagePrefix : string) : Logger :=
  mkLogger (logger l) (enabled l) messagePrefix (msgFormatter l).

Definition SetMsgFormatter (l : Logger) (formatter : option MsgFormatter)
    : Logger :=
  mkLogger (logger l) (enabled l) (msgPrefix l) formatter.

(** [SetOutput] and [SetFlag] go through the pointer to the
    [log.Logger]. *)
Definition on_log (f : log_Logger → log_Logger) (st : State) (l : Logger)
    : outcome State :=
  match logs st !! logger l with
  | None => Panicked NilDereference
  | Some ll =>
      Done (mkState (<[logger l := f ll]> (logs st)) (loggers st)
              (prefixPaddingEnabled st) (prefixMaxPadding st) (output st))
  end.

Definition SetOutput (st : State) (l : Logger) (w : option sink)
    : outcome State :=
  on_log (log_with_out w) st l.

Definition SetFlag (st : State) (l : Logger) (flag : Z) : outcome State :=
  on_log (log_with_flag flag) st l.

Section Calls.
Context `{GoLog}.

(** The calls of a client, on the [Logger] values it holds. *)
Inductive call : Type :=
  | CallNewLogger (handle : option sink) (loggerPrefix : string)
      (enabled : bool)
  | CallSetPrefixPadding (enabled : bool)
  | CallSetOutput (l : Logger) (w : option sink)
  | CallSetFlag (l : Logger) (flag : Z)
  | CallLog (l : Logger) (now : Time) (msg : list any)
  | CallLogf (l : Logger) (now : Time) (format : string) (args : list any)
  | CallLogln (l : Logger) (now : Time) (msg : list any).

Definition exec (st : State) (c : call) : outcome State :=
  match c with
  | CallNewLogger handle loggerPrefix enabled =>
      r ← NewLogger st handle loggerPrefix enabled; Done r.1
  | CallSetPrefixPadding enabled => SetPrefixPadding st enabled
  | CallSetOutput l w => SetOutput st l w
  | CallSetFlag l flag => SetFlag st l flag
  | CallLog l now msg => Log st l now msg
  | CallLogf l now format args => Logf st l now format args
  | CallLogln l now msg => Logln st l now msg
  end.

Fixpoint run (st : State) (cs : list call) : outcome State :=
  match cs with
  | [] => Done st
  | c :: cs' => st' ← exec st c; run st' cs'
  end.

Definition reachable (st : State) : Prop := ∃ cs, run declared cs = Done st.

End Calls.

(** A prefix as the package makes them: nothing, or a name in square
    brackets. *)
Definition bracketed (core : string) : Prop :=
  core = "" ∨ ∃ name, core = "[" +:+ name +:+ "]".

(** The prefix [SetPrefixPadding] gives a core. *)
Definition padded (enabled : bool) (max : Z) (core : string) : string :=
  if enabled then core +:+ repeat_string " " (Z.to_nat (max - len core))
  else if String.eqb core "" then "" else core +:+ " ".

(** What the loop of [SetPrefixPadding] relies on: the prefix of every
    registered logger is a bracketed core followed by spaces, and the
    core with its separating space is no longer than
    [prefixMaxPadding]. *)
Definition shaped (st : State) : Prop :=
  ∀ k l, loggers st !! k = Some l →
    ∃ ll core n, logs st !! logger l = Some ll ∧
                 prefix ll = core +:+ repeat_string " " n ∧
                 bracketed core ∧
                 (len (padded false 0 core) ≤ prefixMaxPadding st)%Z.

(** What it leaves: every registered prefix is padded as the current
    setting asks. *)
Definition aligned (st : State) : Prop :=
  ∀ k l, loggers st !! k = Some l →
    ∃ ll core, logs st !! logger l = Some ll ∧
               prefix ll = padded (prefixPaddingEnabled st)
                             (prefixMaxPadding st) core ∧
               bracketed core ∧
               (len (padded false 0 core) ≤ prefixMaxPadding st)%Z.

Section Repadded.
Context `{GoLog}.

(** The [log.Logger] at [a] after the loop over [ls]. *)
Definition repadded (enabled : bool) (max : Z) (ls : list Logger)
    (logs : gmap loc log_Logger) (a : loc) : option log_Logger :=
  if decide (a ∈ logger <$> ls)
  then (λ ll, log_with_prefix
                (padded enabled max (strings_TrimSpace (prefix ll))) ll)
         <$> logs !! a
  else logs !! a.

End Repadded.

End Wrapper.

(** An instance to evaluate the examples on: the header of the flags
    [Ldate] and [Ltime] over the reference calendar, which has no year,
    and the trimming functions on text without Unicode space. *)
Definition reference_header (prefix : string) (flag : Z)
    (t : @Time reference) : string :=
  prefix
  +:+ (if Z.testbit flag 0 then civil_Format t "01/02 " else "")
  +:+ (if Z.testbit flag 1 then civil_Format t "15:04:05 " else "").

Fixpoint strip_left (s : string) : string :=
  match s with
  | EmptyString => EmptyString
  | String c s' => if Wrapper.asciiSpace c then strip_left s' else s
  end.

Definition reference_log : @GoLog reference :=
  {| log_formatHeader := reference_header;
     strings_TrimFunc_IsSpace := λ s, Wrapper.strip_right (strip_left s);
     strings_TrimRightFunc_IsSpace := Wrapper.strip_right |}.

(** Two loggers of the earlier package, padding switched off and on. *)
Definition wrapperProgram : list (@Wrapper.call reference) :=
  [Wrapper.CallNewLogger (Some os_Stdout) "INFO" true;
   Wrapper.CallNewLogger (Some os_Stderr) "WARNING" true;
   Wrapper.CallSetPrefixPadding false;
   Wrapper.CallLog (Wrapper.mkLogger 1%positive true "" None) spring
     ["started"];
   Wrapper.CallSetPrefixPadding true].

Definition wrapperState : Wrapper.State :=
  match @Wrapper.run reference reference_log Wrapper.declared wrapperProgram
  with
  | Done st => st
  | Panicked _ => Wrapper.declared
  end.

Definition infoLogger : Wrapper.Logger :=
  Wrapper.mkLogger 1%positive true "" None.

(** * Properties *)

(** ** Strings *)

Lemma append_cons (x : ascii) (a b : string) :
  String x a +:+ b = String x (a +:+ b).
Proof. reflexivity. Qed.

Lemma append_assoc (a b c : string) : (a +:+ b) +:+ c = a +:+ b +:+ c.
Proof.
  induction a as [|x a IH]; [done|]. rewrite !append_cons. by f_equal.
Qed.

Lemma append_length (a b : string) :
  String.length (a +:+ b) = (String.length a + String.length b)%nat.
Proof.
  induction a as [|x a IH]; [done|]. rewrite append_cons. simpl. by f_equal.
Qed.

Lemma len_append (a b : string) : len (a +:+ b) = (len a + len b)%Z.
Proof. unfold len. rewrite append_length. lia. Qed.

Lemma len_nonneg (s : string) : (0 ≤ len s)%Z.
Proof. unfold len. lia. Qed.

Lemma spaces_length (n : nat) : String.length (repeat_string " " n) = n.
Proof.
  induction n as [|n IH]; [done|].
  change (repeat_string " " (S n)) with (String " " (repeat_string " " n)).
  simpl. by f_equal.
Qed.

Lemma len_spaces (n : nat) : len (repeat_string " " n) = Z.of_nat n.
Proof. unfold len. by rewrite spaces_length. Qed.

Lemma Repeat_nonneg (s : string) (count : Z) :
  (0 ≤ count)%Z → strings_Repeat s count = Done (repeat_string s (Z.to_nat count)).
Proof. intros Hc. unfold strings_Repeat. case_decide; [lia | done]. Qed.

Lemma Repeat_negative (s : string) (count : Z) :
  (count < 0)%Z → strings_Repeat s count = Panicked NegativeRepeatCount.
Proof. intros Hc. unfold strings_Repeat. case_decide; [done | lia]. Qed.

Lemma Repeat_len (s : string) :
  strings_Repeat " " (len s) = Done (repeat_string " " (String.length s)).
Proof. rewrite Repeat_nonneg; [|apply len_nonneg]. unfold len. by rewrite Nat2Z.id. Qed.

(** ** What the write step computes *)

Lemma bind_Done {A B} (a : A) (f : A → outcome B) : Done a ≫= f = f a.
Proof. reflexivity. Qed.

Lemma bind_Panicked {A B} (e : panic) (f : A → outcome B) :
  Panicked e ≫= f = Panicked e.
Proof. reflexivity. Qed.

Lemma performWrite_Done (st : State) (q : queueItem) (k : sink) :
  writer q = Some k →
  paddingFits st q →
  performWrite st q =
    Done (with_written
            (output st ++
               [(k, writtenCategory st q +:+ writtenPadding st q
                      +:+ message q +:+ nl)])
            (Category.Name (category q)) st).
Proof.
  intros Hw Hfit. unfold performWrite, writtenCategory, writtenPadding.
  rewrite Hw. unfold paddingFits in Hfit. cbv zeta.
  destruct (categoryPadding st) eqn:Hpad.
  - specialize (Hfit eq_refl). rewrite Repeat_len, Repeat_nonneg by exact Hfit.
    rewrite bind_Done.
    rewrite andb_false_r.
    destruct (categoryGrouping st && _)%bool;
      rewrite bind_Done; unfold fmt_Fprintln;
      rewrite bind_Done, !append_assoc; done.
  - rewrite Repeat_len, bind_Done. cbn [Bool.eqb]. rewrite andb_true_r.
    destruct (String.eqb (Category.Name (category q)) ""); cbn [negb];
      (destruct (categoryGrouping st && _)%bool;
       rewrite bind_Done; unfold fmt_Fprintln;
       rewrite bind_Done, !append_assoc; done).
Qed.

Lemma performWrite_negative_padding (st : State) (q : queueItem) :
  categoryPadding st = true →
  (maxCategorySize st - len (Category.Compose (category q)) + 1 < 0)%Z →
  performWrite st q = Panicked NegativeRepeatCount.
Proof.
  intros Hpad Hneg. unfold performWrite. rewrite Hpad. cbv zeta.
  rewrite Repeat_len, Repeat_negative by exact Hneg. done.
Qed.

Lemma performWrite_nil (st : State) (q : queueItem) :
  writer q = None →
  paddingFits st q →
  performWrite st q = Panicked NilDereference.
Proof.
  intros Hw Hfit. unfold performWrite, paddingFits in *. rewrite Hw. cbv zeta.
  destruct (categoryPadding st) eqn:Hpad.
  - specialize (Hfit eq_refl). rewrite Repeat_len, Repeat_nonneg by exact Hfit.
    rewrite bind_Done.
    destruct (categoryGrouping st && _)%bool; rewrite bind_Done; done.
  - rewrite Repeat_len, bind_Done.
    destruct (categoryGrouping st && _)%bool; rewrite bind_Done; done.
Qed.

Lemma paddingFits_dec (st : State) (q : queueItem) :
  paddingFits st q ∨
  (categoryPadding st = true ∧
   (maxCategorySize st - len (Category.Compose (category q)) + 1 < 0)%Z).
Proof.
  unfold paddingFits. destruct (categoryPadding st); [|left; done].
  destruct (decide (0 ≤ maxCategorySize st
                    - len (Category.Compose (category q)) + 1)%Z).
  - left. done.
  - right. split; [done | lia].
Qed.

(** The write step completes exactly when the writer is not nil and the
    padding count is not negative. *)
Lemma performWrite_completes (st : State) (q : queueItem) :
  completes (performWrite st q) = true ↔
  (∃ k, writer q = Some k) ∧ paddingFits st q.
Proof.
  split.
  - intros Hc. destruct (paddingFits_dec st q) as [Hfit | [Hpad Hneg]].
    + destruct (writer q) as [k|] eqn:Hk; [by eauto|].
      by rewrite performWrite_nil in Hc.
    + by rewrite performWrite_negative_padding in Hc.
  - intros [[k Hk] Hfit]. by rewrite (performWrite_Done st q k).
Qed.

Lemma writtenCategory_length (st : State) (q : queueItem) :
  String.length (writtenCategory st q) =
  String.length (Category.Compose (category q)).
Proof.
  unfold writtenCategory.
  destruct (categoryGrouping st && _)%bool; [apply spaces_length | done].
Qed.
(** ** A nil destination *)

(** C1, as stated, fails: the item a logger with a nil writer queues
    reaches [performWrite] with a nil destination, and the write step
    does not end in a state with the output left as it was. *)
Lemma nil_writer_not_discarded :
  ∃ st, run declared fileProgram = Done st ∧
        logQueue st = [fileItem] ∧
        writer fileItem = None ∧
        poll st LogQueue
        = Some (performWrite (with_queues [] [] st) fileItem) ∧
        performWrite (with_queues [] [] st) fileItem
        = Panicked NilDereference ∧
        ¬ ∃ st', performWrite (with_queues [] [] st) fileItem = Done st'
                 ∧ output st' = output st.
Proof.
  eexists. split; [vm_compute; reflexivity|].
  split; [vm_compute; reflexivity|]. split; [reflexivity|].
  split; [vm_compute; reflexivity|].
  split; [vm_compute; reflexivity|].
  intros (st' & Hw & _). vm_compute in Hw. discriminate Hw.
Qed.

(** C1, amended: with a nil destination the write step never completes;
    it panics, on the call of [Write] through the nil interface whenever
    the padding could be built, and so writes nothing and leaves the
    remembered category as it was. *)
Theorem performWrite_nil_writer (st : State) (q : queueItem) :
  writer q = None →
  completes (performWrite st q) = false ∧
  (paddingFits st q → performWrite st q = Panicked NilDereference).
Proof.
  intros Hw. split; [|by apply performWrite_nil].
  destruct (paddingFits_dec st q) as [Hfit | [Hpad Hneg]].
  - by rewrite performWrite_nil.
  - by rewrite performWrite_negative_padding.
Qed.

Lemma performWrite_nil_writer_witness :
  completes (performWrite initial fileItem) = false ∧
  (paddingFits initial fileItem →
   performWrite initial fileItem = Panicked NilDereference).
Proof. apply (performWrite_nil_writer initial fileItem). reflexivity. Defined.

(** ** Padding *)

(** C2 at its failing inputs.  Padding is enabled in both.  In the
    first the widest registered category is [[LOG]] (5 bytes) and the
    item, of a logger that was not registered, has the category
    [[ERROR]] (7 bytes): the padding of the claim is
    [max(0, 5 - 7 + 1) = 0] spaces.  In the second, the README's, the
    width is 7 and the category has become [(CRITICAL)] (10 bytes):
    again 0 spaces.  In both the write step panics on the negative
    count instead of writing the line. *)
Theorem performWrite_wide_category :
  (∃ st, run declared literalProgram = Done st ∧
         logQueue st = [literalItem] ∧
         categoryPadding st = true ∧
         maxCategorySize st = 5%Z ∧
         len (Category.Compose (category literalItem)) = 7%Z ∧
         Z.max 0 (maxCategorySize st
                  - len (Category.Compose (category literalItem)) + 1) = 0%Z ∧
         poll st LogQueue = Some (Panicked NegativeRepeatCount)) ∧
  (∃ st q, modified = Done st ∧
           output st
           = [(os_Stderr, "[ERROR] 04/27 15:25:47 original format" +:+ nl)] ∧
           logQueue st = [q] ∧
           categoryPadding st = true ∧
           maxCategorySize st = 7%Z ∧
           Category.Compose (category q) = "(CRITICAL)" ∧
           Z.max 0 (maxCategorySize st
                    - len (Category.Compose (category q)) + 1) = 0%Z ∧
           poll st LogQueue = Some (Panicked NegativeRepeatCount)).
Proof.
  split.
  - eexists. split; [vm_compute; reflexivity|].
    repeat (split; [vm_compute; reflexivity|]). vm_compute. reflexivity.
  - eexists _, _. split; [vm_compute; reflexivity|].
    repeat (split; [vm_compute; reflexivity|]). vm_compute. reflexivity.
Qed.

(** Where the count is not negative the padding is the one of the
    claim: [max(0, maxCategorySize - len + 1)] spaces with padding
    enabled, one space after a named category and none after an unnamed
    one with padding disabled. *)
Lemma writtenPadding_enabled (st : State) (q : queueItem) :
  categoryPadding st = true →
  writtenPadding st q =
    repeat_string " "
      (Z.to_nat (Z.max 0 (maxCategorySize st
                          - len (Category.Compose (category q)) + 1))).
Proof.
  intros Hpad. unfold writtenPadding. rewrite Hpad. f_equal.
  destruct (Z.max_spec 0 (maxCategorySize st
                          - len (Category.Compose (category q)) + 1))
    as [[Hlt ->] | [Hle ->]]; [done|].
  rewrite !Z2Nat.inj_0. by rewrite Z2Nat.nonpos.
Qed.

Lemma writtenPadding_disabled (st : State) (q : queueItem) :
  categoryPadding st = false →
  writtenPadding st q =
    if String.eqb (Category.Name (category q)) "" then "" else " ".
Proof. intros Hpad. unfold writtenPadding. by rewrite Hpad. Qed.

Lemma performWrite_padding (st : State) (q : queueItem) (k : sink) :
  writer q = Some k →
  paddingFits st q →
  ∃ st', performWrite st q = Done st' ∧
         output st' =
           output st ++ [(k, writtenCategory st q +:+ writtenPadding st q
                               +:+ message q +:+ nl)] ∧
         (categoryPadding st = true →
          len (writtenCategory st q +:+ writtenPadding st q)
          = (maxCategorySize st + 1)%Z).
Proof.
  intros Hw Hfit. eexists. split; [by apply performWrite_Done|].
  split; [done|]. intros Hpad. specialize (Hfit Hpad).
  rewrite len_append. unfold len at 1. rewrite writtenCategory_length.
  unfold writtenPadding. rewrite Hpad, len_spaces. unfold len in *. lia.
Qed.

(** ** Grouping *)

(** C3: an item whose write completes is written with its category
    blanked, width kept, exactly when grouping is enabled and its
    category name is the one remembered from the previous write by any
    logger; the name remembered afterwards is the item's, whether or not
    the category was blanked and whether or not grouping is enabled. *)
Theorem performWrite_grouping (st : State) (q : queueItem) (k : sink) :
  writer q = Some k →
  paddingFits st q →
  ∃ st' label,
    performWrite st q = Done st' ∧
    label =
      (if categoryGrouping st
          && String.eqb (previousCategory st) (Category.Name (category q))
       then repeat_string " " (String.length (Category.Compose (category q)))
       else Category.Compose (category q)) ∧
    String.length label = String.length (Category.Compose (category q)) ∧
    output st' =
      output st ++ [(k, label +:+ writtenPadding st q +:+ message q +:+ nl)] ∧
    previousCategory st' = Category.Name (category q).
Proof.
  intros Hw Hfit. eexists _, (writtenCategory st q).
  split; [by apply performWrite_Done|].
  split; [done|]. split; [apply writtenCategory_length|]. done.
Qed.

Lemma performWrite_grouping_witness :
  ∃ st' label,
    performWrite initial errorItem = Done st' ∧
    label =
      (if categoryGrouping initial
          && String.eqb (previousCategory initial)
               (Category.Name (category errorItem))
       then repeat_string " "
              (String.length (Category.Compose (category errorItem)))
       else Category.Compose (category errorItem)) ∧
    String.length label
    = String.length (Category.Compose (category errorItem)) ∧
    output st' =
      output initial ++
        [(os_Stderr, label +:+ writtenPadding initial errorItem
                       +:+ message errorItem +:+ nl)] ∧
    previousCategory st' = Category.Name (category errorItem).
Proof.
  apply (performWrite_grouping initial errorItem os_Stderr).
  - reflexivity.
  - intros _. vm_compute. discriminate.
Defined.
(** ** Log calls *)

Section LogCalls.
Context `{GoStd}.

Lemma performLog_disabled (st : State) (l : loc) (lg : Logger) (now : Time)
    (message : string) (newline : bool) :
  heap st !! l = Some lg → Enabled lg = false →
  Logger_performLog st l now message newline = Done st.
Proof. intros Hl He. unfold Logger_performLog. by rewrite Hl, He. Qed.

Lemma performLog_enabled (st : State) (l : loc) (lg : Logger) (now : Time)
    (message : string) (newline : bool) :
  heap st !! l = Some lg → Enabled lg = true →
  Logger_performLog st l now message newline
  = Done (send (counted st l lg) (submitted lg now message newline)).
Proof. intros Hl He. unfold Logger_performLog. by rewrite Hl, He. Qed.

Lemma send_pending (st : State) (q : queueItem) :
  (length (logQueue (send st q)) + length (logQueueBuffer (send st q))
   = S (length (logQueue st) + length (logQueueBuffer st)))%nat.
Proof.
  unfold send. destruct (bufferEnabled st); simpl; rewrite length_app; simpl; lia.
Qed.

Lemma send_frame (st : State) (q : queueItem) :
  heap (send st q) = heap st ∧ output (send st q) = output st ∧
  loggers (send st q) = loggers st ∧
  bufferEnabled (send st q) = bufferEnabled st.
Proof. unfold send. by destruct (bufferEnabled st) eqn:Hb. Qed.


Lemma NewLogger_lookup (st : State) (handle : option sink) (category : string)
    (enabled : bool) :
  heap (NewLogger st handle category enabled).1
    !! (NewLogger st handle category enabled).2
  = Some {| Writer := handle; Enabled := enabled;
            id := highestLoggerID st + 1;
            Category := Category.mk (Some SquareBracketWrapper) category;
            Timestamp := Timestamp.mk "01/02 15:04:05" None;
            Message := Message.mk None;
            splunkEnabled := false; counterEnabled := false;
            counterName := ""; count := 0 |}.
Proof. unfold NewLogger. simpl. apply lookup_insert_eq. Qed.




(** C9: the item a log call sends carries the writer the logger has at
    the call.  Assigning another writer afterwards leaves both queues as
    they are, the item is written to the writer it carries, and only
    the items of later calls carry the new one. *)
Theorem destination_snapshot (st : State) (l : loc) (lg : Logger) (now : Time)
    (message : string) (newline : bool) (w' : option sink) :
  heap st !! l = Some lg →
  Enabled lg = true →
  ∃ q st1 st2,
    Logger_performLog st l now message newline = Done st1 ∧
    st1 = send (counted st l lg) q ∧
    writer q = Writer lg ∧
    Logger_SetOutput st1 l w' = Done st2 ∧
    logQueue st2 = logQueue st1 ∧
    logQueueBuffer st2 = logQueueBuffer st1 ∧
    (∀ st' k, Writer lg = Some k → paddingFits st' q →
       ∃ st'' line, performWrite st' q = Done st'' ∧
                    output st'' = output st' ++ [(k, line)]) ∧
    (∀ now2 message2 newline2,
       ∃ q2 st3, Logger_performLog st2 l now2 message2 newline2 = Done st3 ∧
                 (logQueue st3 = logQueue st2 ++ [q2] ∧
                  logQueueBuffer st3 = logQueueBuffer st2
                  ∨ logQueue st3 = logQueue st2 ∧
                    logQueueBuffer st3 = logQueueBuffer st2 ++ [q2]) ∧
                 writer q2 = w').
Proof.
  intros Hl He.
  set (q := submitted lg now message newline).
  set (st1 := send (counted st l lg) q).
  set (lg1 := Logger_with_count (count lg + 1) lg).
  assert (Hl1 : heap st1 !! l = Some lg1).
  { destruct (send_frame (counted st l lg) q) as (Hh & _).
    unfold st1. rewrite Hh. apply lookup_insert_eq. }
  set (lg2 := Logger_with_Writer w' lg1).
  set (st2 := with_heap (<[l := lg2]> (heap st1)) st1).
  exists q, st1, st2.
  split; [by apply performLog_enabled|]. split; [done|]. split; [done|].
  split; [unfold Logger_SetOutput, assign; by rewrite Hl1|].
  split; [done|]. split; [done|]. split.
  - intros st' k Hk Hfit. eexists _, _.
    split; [by apply performWrite_Done|]. done.
  - intros now2 message2 newline2.
    assert (Hl2 : heap st2 !! l = Some lg2) by apply lookup_insert_eq.
    eexists (submitted lg2 now2 message2 newline2), _.
    split; [by apply performLog_enabled|]. split; [|done].
    unfold send. destruct (bufferEnabled (counted st2 l lg2)); simpl; auto.
Qed.

(** C10: each package-level function is its method: the same call of
    [performLog], hence the same gating, the same count and the same
    item sent. *)
Theorem package_functions_are_methods (st : State) (l : loc) (now : Time)
    (msg : list any) (format : string) (args : list any) :
  Log st l now msg = Logger_Log st l now msg ∧
  Logf st l now format args = Logger_Logf st l now format args ∧
  Logln st l now msg = Logger_Logln st l now msg.
Proof. by repeat split. Qed.

End LogCalls.

(** ** Instances on the reference library *)

Lemma initial_Internal : heap initial !! Internal = Some internalLogger.
Proof. apply NewLogger_lookup. Qed.



Lemma destination_snapshot_witness :
  let st := initial in
  let l := Internal in
  let lg := internalLogger in
  let now : @Time reference := spring in
  let w' := Some os_Stderr in
  ∃ q st1 st2,
    Logger_performLog st l now "poller started" false = Done st1 ∧
    st1 = send (counted st l lg) q ∧
    writer q = Writer lg ∧
    Logger_SetOutput st1 l w' = Done st2 ∧
    logQueue st2 = logQueue st1 ∧
    logQueueBuffer st2 = logQueueBuffer st1 ∧
    (∀ st' k, Writer lg = Some k → paddingFits st' q →
       ∃ st'' line, performWrite st' q = Done st'' ∧
                    output st'' = output st' ++ [(k, line)]) ∧
    (∀ (now2 : @Time reference) message2 newline2,
       ∃ q2 st3, Logger_performLog st2 l now2 message2 newline2 = Done st3 ∧
                 (logQueue st3 = logQueue st2 ++ [q2] ∧
                  logQueueBuffer st3 = logQueueBuffer st2
                  ∨ logQueue st3 = logQueue st2 ∧
                    logQueueBuffer st3 = logQueueBuffer st2 ++ [q2]) ∧
                 writer q2 = w').
Proof.
  apply (@destination_snapshot reference initial Internal internalLogger spring
           "poller started" false (Some os_Stderr)).
  - vm_compute. reflexivity.
  - reflexivity.
Defined.
(** ** The registry and its invariant *)

Lemma SetCategoryPadding_widest (st : State) :
  widest st (maxCategorySize (SetCategoryPadding st true)).
Proof.
  unfold widest, SetCategoryPadding. simpl.
  apply (set_fold_ind_L
           (λ (m : Z) (X : gset loc),
              (0 ≤ m)%Z ∧
              (∀ p lg, p ∈ X → heap st !! p = Some lg →
                       (len (Category.Compose (Category lg)) ≤ m)%Z) ∧
              (m = 0%Z ∨ ∃ p lg, p ∈ X ∧ heap st !! p = Some lg ∧
                                  len (Category.Compose (Category lg)) = m))).
  - split; [done|]. split; [|by left]. intros p lg Hp.
    by apply not_elem_of_empty in Hp.
  - intros x X m Hx (Hm & Hub & Hatt).
    destruct (heap st !! x) as [lgx|] eqn:Hlx.
    + case_decide as Hgt.
      * split; [lia|]. split.
        -- intros p lg [->%elem_of_singleton | Hp]%elem_of_union Hl.
           ++ rewrite Hlx in Hl. injection Hl as <-. lia.
           ++ specialize (Hub p lg Hp Hl). lia.
        -- right. exists x, lgx. split; [|done].
           apply elem_of_union_l. by apply elem_of_singleton.
      * split; [done|]. split.
        -- intros p lg [->%elem_of_singleton | Hp]%elem_of_union Hl.
           ++ rewrite Hlx in Hl. injection Hl as <-. lia.
           ++ by apply (Hub p lg).
        -- destruct Hatt as [-> | (p & lg & Hp & Hl & Hlen)]; [by left|].
           right. exists p, lg. split; [by apply elem_of_union_r | done].
    + split; [done|]. split.
      * intros p lg [->%elem_of_singleton | Hp]%elem_of_union Hl.
        -- congruence.
        -- by apply (Hub p lg).
      * destruct Hatt as [-> | (p & lg & Hp & Hl & Hlen)]; [by left|].
        right. exists p, lg. split; [by apply elem_of_union_r | done].
Qed.


Lemma widest_unique (st : State) (m n : Z) : widest st m → widest st n → m = n.
Proof.
  intros (Hm & Hubm & Hattm) (Hn & Hubn & Hattn).
  assert (m ≤ n)%Z.
  { destruct Hattm as [-> | (p & lg & Hp & Hl & <-)]; [done|]. by apply (Hubn p lg). }
  assert (n ≤ m)%Z.
  { destruct Hattn as [-> | (p & lg & Hp & Hl & <-)]; [done|]. by apply (Hubm p lg). }
  lia.
Qed.

Lemma heap_rel_refl (h : gmap loc Logger) : heap_rel h h.
Proof. intros p. destruct (h !! p); by constructor. Qed.

Lemma heap_rel_insert (h h' : gmap loc Logger) (p : loc) (a b : Logger) :
  heap_rel h h' → h' !! p = Some a → id b = id a → Category b = Category a →
  heap_rel h (<[p := b]> h').
Proof.
  intros Hr Hp Hi Hc q. destruct (decide (p = q)) as [<- | Hne].
  - rewrite lookup_insert_eq. specialize (Hr p). rewrite Hp in Hr.
    inversion Hr as [a0 b0 [Hi0 Hc0] |]; subst. constructor.
    split; congruence.
  - rewrite lookup_insert_ne by done. apply Hr.
Qed.

Lemma assign_rel (f : Logger → Logger) (st st' : State) (l : loc) :
  (∀ lg, id (f lg) = id lg ∧ Category (f lg) = Category lg) →
  assign f st l = Done st' →
  heap_rel (heap st) (heap st') ∧ st' = with_heap (heap st') st.
Proof.
  intros Hf. unfold assign. destruct (heap st !! l) as [lg|] eqn:Hl; [|done].
  intros [= <-]. split; [|done]. simpl.
  apply heap_rel_insert with lg; [apply heap_rel_refl | done | apply Hf ..].
Qed.

Lemma SetEnabledByID_lookup (st : State) (loggerID : Z) (p : loc) :
  (p ∈ loggers st →
   heap (SetEnabledByID st loggerID) !! p
   = (λ lg, Logger_with_Enabled (bool_decide (id lg ≤ loggerID)%Z) lg)
       <$> heap st !! p) ∧
  (p ∉ loggers st → heap (SetEnabledByID st loggerID) !! p = heap st !! p).
Proof.
  unfold SetEnabledByID. simpl. revert p.
  apply (set_fold_ind_L
           (λ (h : gmap loc Logger) (X : gset loc),
              ∀ p, (p ∈ X →
                    h !! p = (λ lg, Logger_with_Enabled
                                      (bool_decide (id lg ≤ loggerID)%Z) lg)
                               <$> heap st !! p) ∧
                   (p ∉ X → h !! p = heap st !! p))).
  - intros p. split; [|done]. intros Hp. by apply not_elem_of_empty in Hp.
  - intros x X h Hx IH p.
    assert (Hhx : h !! x = heap st !! x) by by apply IH.
    destruct (decide (p = x)) as [-> | Hne].
    + split; [intros _ | intros Hn; contradict Hn;
                           apply elem_of_union_l; by apply elem_of_singleton].
      rewrite Hhx. destruct (heap st !! x) as [lg|] eqn:Hl; simpl.
      * by rewrite lookup_insert_eq.
      * done.
    + assert (h !! p = (match h !! x with
                        | Some lg =>
                            <[x := Logger_with_Enabled
                                     (bool_decide (id lg ≤ loggerID)%Z) lg]> h
                        | None => h
                        end) !! p) as <-.
      { destruct (h !! x); [by rewrite lookup_insert_ne | done]. }
      split; intros Hp; apply IH.
      * apply elem_of_union in Hp as [Hp%elem_of_singleton | Hp]; done.
      * contradict Hp. by apply elem_of_union_r.
Qed.

Lemma SetEnabledByID_rel (st : State) (loggerID : Z) :
  heap_rel (heap st) (heap (SetEnabledByID st loggerID)).
Proof.
  intros p. destruct (SetEnabledByID_lookup st loggerID p) as [Hin Hout].
  destruct (decide (p ∈ loggers st)) as [Hp | Hp].
  - rewrite (Hin Hp). destruct (heap st !! p); simpl; by constructor.
  - rewrite (Hout Hp). destruct (heap st !! p); by constructor.
Qed.

Lemma SetEnabledByCategory_rel (st : State) (enabled : bool)
    (categories : list string) :
  heap_rel (heap st) (heap (SetEnabledByCategory st enabled categories)).
Proof.
  unfold SetEnabledByCategory. simpl.
  apply (set_fold_ind_L (λ (h : gmap loc Logger) (X : gset loc),
                           heap_rel (heap st) h)).
  - apply heap_rel_refl.
  - intros x X h _ Hr. clear X. revert h Hr.
    induction categories as [|c cs IH]; intros h Hr; simpl; [done|].
    apply IH. destruct (h !! x) as [lg|] eqn:Hl; [|done].
    destruct (String.eqb _ c); [|done].
    by apply heap_rel_insert with lg.
Qed.

Lemma declared_inv : registry_inv declared [].
Proof.
  split.
  - done.
  - intros p. split; intros Hp; [by apply not_elem_of_empty in Hp|].
    by apply elem_of_nil in Hp.
  - intros p Hp. by apply not_elem_of_empty in Hp.
Qed.

Lemma declared_width : width_inv declared.
Proof.
  intros _. split; [done|]. split; [|by left].
  intros p lg Hp. by apply not_elem_of_empty in Hp.
Qed.

Lemma same_registry_inv (st st' : State) (evs : list loc) :
  registry_inv st evs → same_registry st st' → registry_inv st' evs.
Proof.
  intros [Hh Hl Hi] (El & Eh & Ep & Em & Hheap). split.
  - by rewrite Eh.
  - intros p. rewrite El. apply Hl.
  - intros p Hp. rewrite El in Hp.
    destruct (Hi p Hp) as (lg & Hlg & H0 & Hev & Hlast).
    destruct (Hheap p lg Hp Hlg) as (lg' & Hlg' & Eid & _).
    exists lg'. rewrite Eid. done.
Qed.

Lemma same_registry_width (st st' : State) (evs : list loc) :
  registry_inv st evs → width_inv st → same_registry st st' → width_inv st'.
Proof.
  intros [Hh Hl Hi] Hw (El & Eh & Ep & Em & Hheap). unfold width_inv.
  - rewrite Ep, Em. intros Hpad.
    destruct (Hw Hpad) as (Hm & Hub & Hatt). split; [done|]. split.
    + intros p lg' Hp Hlg'. rewrite El in Hp.
      destruct (Hi p Hp) as (lg & Hlg & _).
      destruct (Hheap p lg Hp Hlg) as (lg'' & Hlg'' & _ & Ec).
      rewrite Hlg' in Hlg''. injection Hlg'' as <-. rewrite Ec.
      by apply (Hub p lg).
    + destruct Hatt as [-> | (p & lg & Hp & Hlg & Hlen)]; [by left|].
      right. destruct (Hheap p lg Hp Hlg) as (lg' & Hlg' & _ & Ec).
      exists p, lg'. rewrite El, Ec. done.
Qed.

Lemma heap_rel_same (st st' : State) :
  heap_rel (heap st) (heap st') →
  loggers st' = loggers st →
  highestLoggerID st' = highestLoggerID st →
  categoryPadding st' = categoryPadding st →
  maxCategorySize st' = maxCategorySize st →
  same_registry st st'.
Proof.
  intros Hr El Eh Ep Em. repeat split; try done.
  intros p lg _ Hlg. specialize (Hr p). rewrite Hlg in Hr.
  inversion Hr as [a b [Hi Hc] Ha Hb |]; subst. by exists b.
Qed.

Lemma performWrite_same (st st' : State) (q : queueItem) :
  performWrite st q = Done st' → same_registry st st'.
Proof.
  intros Hw. destruct (writer q) as [k|] eqn:Hk.
  - destruct (paddingFits_dec st q) as [Hfit | [Hpad Hneg]].
    + rewrite (performWrite_Done st q k Hk Hfit) in Hw. injection Hw as <-.
      apply heap_rel_same; try done. apply heap_rel_refl.
    + by rewrite performWrite_negative_padding in Hw.
  - destruct (paddingFits_dec st q) as [Hfit | [Hpad Hneg]].
    + by rewrite performWrite_nil in Hw.
    + by rewrite performWrite_negative_padding in Hw.
Qed.


Lemma AddLogger_step_registered (st st' : State) (p : loc) :
  AddLogger_step st p = Done st' →
  ∃ lg, heap st !! p = Some lg ∧
        st' = registered_at st p (Logger_with_id (highestLoggerID st + 1) lg).
Proof.
  unfold AddLogger_step. simpl.
  destruct (heap st !! p) as [lg|] eqn:Hlg; [|done].
  intros [= <-]. by exists lg.
Qed.

Lemma registered_at_inv (st : State) (evs : list loc) (p : loc) (lg : Logger) :
  registry_inv st evs →
  id lg = (highestLoggerID st + 1)%Z →
  registry_inv (registered_at st p lg) (evs ++ [p]).
Proof.
  intros [Hh Hl Hi] Hid.
  assert (Hlen : id lg = Z.of_nat (length evs)) by lia.
  split.
  - unfold registered_at, SetCategoryPadding. simpl.
    rewrite length_app. simpl. lia.
  - intros q. unfold registered_at, SetCategoryPadding. simpl.
    rewrite elem_of_union, elem_of_singleton, elem_of_app, list_elem_of_singleton.
    rewrite Hl. tauto.
  - intros q. unfold registered_at, SetCategoryPadding. simpl.
    intros Hq. destruct (decide (q = p)) as [-> | Hne].
    + exists lg. rewrite lookup_insert_eq. split; [done|]. split; [lia|].
      rewrite Hlen, Nat2Z.id. split.
      * rewrite lookup_app_r by done. by rewrite Nat.sub_diag.
      * intros j Hj. rewrite lookup_ge_None_2; [done|].
        rewrite length_app. simpl. lia.
    + apply elem_of_union in Hq as [Hq%elem_of_singleton | Hq]; [done|].
      destruct (Hi q Hq) as (lq & Hlq & H0 & Hev & Hlast).
      exists lq. rewrite lookup_insert_ne by done. split; [done|].
      split; [done|].
      pose proof (lookup_lt_Some _ _ _ Hev) as Hlt. split.
      * by rewrite lookup_app_l.
      * intros j Hj. destruct (decide (j < length evs)%nat) as [Hjl | Hjl].
        -- rewrite lookup_app_l by done. by apply Hlast.
        -- rewrite lookup_app_r by lia.
           destruct (j - length evs)%nat; simpl; [congruence | done].
Qed.

Lemma registered_at_width (st : State) (p : loc) (lg : Logger) :
  width_inv (registered_at st p lg).
Proof.
  - intros Hpad.
    assert (Hp : categoryPadding st = true) by exact Hpad.
    pose proof (SetCategoryPadding_widest
                  (with_loggers ({[p]} ∪ loggers st)
                     (with_heap (<[p := lg]> (heap st))
                        (with_highestLoggerID (highestLoggerID st + 1) st))))
      as Hwd.
    unfold registered_at. cbv zeta.
    change (categoryPadding (with_loggers _ _)) with (categoryPadding st).
    rewrite Hp. exact Hwd.
Qed.

Lemma AddLogger_inv (newLoggers : list loc) (st st' : State) (evs : list loc) :
  registry_inv st evs →
  AddLogger st newLoggers = Done st' →
  registry_inv st' (evs ++ newLoggers).
Proof.
  revert st evs. induction newLoggers as [|p ps IH]; intros st evs Hinv; simpl.
  - intros [= <-]. by rewrite app_nil_r.
  - destruct (AddLogger_step st p) as [st1|] eqn:Hstep; [|done].
    rewrite bind_Done. intros Hrest.
    apply AddLogger_step_registered in Hstep as (lg & Hlg & ->).
    rewrite (cons_middle p evs ps), app_assoc.
    apply (IH _ _ (registered_at_inv st evs p
                     (Logger_with_id (highestLoggerID st + 1) lg)
                     Hinv eq_refl) Hrest).
Qed.

Lemma AddLogger_width (newLoggers : list loc) (st st' : State) :
  AddLogger st newLoggers = Done st' →
  (newLoggers = [] → width_inv st) → width_inv st'.
Proof.
  revert st. induction newLoggers as [|p ps IH]; intros st; simpl.
  - intros [= <-] Hw. by apply Hw.
  - destruct (AddLogger_step st p) as [st1|] eqn:Hstep; [|done].
    rewrite bind_Done. intros Hrest _.
    apply AddLogger_step_registered in Hstep as (lg & Hlg & ->).
    apply (IH _ Hrest). intros _. apply registered_at_width.
Qed.

Lemma assign_inv (f : Logger → Logger) (st st' : State) (l : loc)
    (evs : list loc) :
  (∀ lg, id (f lg) = id lg) →
  registry_inv st evs → assign f st l = Done st' → registry_inv st' evs.
Proof.
  intros Hf [Hh Hl Hi] Hc. unfold assign in Hc.
  destruct (heap st !! l) as [lg0|] eqn:Hl0; [|done]. injection Hc as <-.
  split; [done | done |]. intros p Hp. cbn in Hp |- *.
  destruct (Hi p Hp) as (lg & Hlg & H0 & Hev & Hlast).
  destruct (decide (p = l)) as [-> | Hne].
  - exists (f lg0). rewrite lookup_insert_eq.
    rewrite Hl0 in Hlg. injection Hlg as ->. by rewrite Hf.
  - exists lg. by rewrite lookup_insert_ne.
Qed.

Lemma alloc_same (st : State) (lg : Logger) (evs : list loc) :
  registry_inv st evs → same_registry st (alloc st lg).1.
Proof.
  intros Hinv. repeat split; try done. simpl.
  intros p lp Hp Hlp. exists lp. split; [|done].
  rewrite lookup_insert_ne; [done|]. intros <-.
  apply (is_fresh (dom (heap st))). apply elem_of_dom. by exists lp.
Qed.

Section Runs.
Context `{GoStd}.

Lemma performLog_same (st st' : State) (l : loc) (now : Time)
    (message : string) (newline : bool) :
  Logger_performLog st l now message newline = Done st' →
  same_registry st st'.
Proof.
  destruct (heap st !! l) as [lg|] eqn:Hlg;
    [|unfold Logger_performLog; by rewrite Hlg].
  destruct (Enabled lg) eqn:He.
  - rewrite (performLog_enabled st l lg now message newline Hlg He).
    intros [= <-].
    destruct (send_frame (counted st l lg)
                (submitted lg now message newline)) as (Hh & _ & Hl & _).
    apply heap_rel_same.
    + rewrite Hh. simpl.
      apply heap_rel_insert with lg; [apply heap_rel_refl | done ..].
    + by rewrite Hl.
    + unfold send. by destruct (bufferEnabled _).
    + unfold send. by destruct (bufferEnabled _).
    + unfold send. by destruct (bufferEnabled _).
  - rewrite (performLog_disabled st l lg now message newline Hlg He).
    intros [= <-]. apply heap_rel_same; try done. apply heap_rel_refl.
Qed.

(** The calls that leave the registry and the registered categories
    as they are. *)
Lemma exec_same (st st' : State) (c : call) (evs : list loc) :
  registry_inv st evs →
  exec st c = Done st' →
  match c with
  | CallNewLogger _ _ _ | CallAddLogger _ | CallSetCategoryPadding _
  | CallSetCategory _ _ => True
  | _ => same_registry st st'
  end.
Proof.
  intros Hinv.
  destruct c as [handle cat enabled | cc ct cm cw ce | ps | enabled | enabled
                 | useBuffer | enabled cats | loggerID | l0 now msg
                 | l0 now format args | l0 now msg | l0 | l0 | l0 w
                 | l0 c0 | l0 t0 | l0 m0 | | ch];
    simpl; try done.
  - intros [= <-]. by eapply alloc_same.
  - intros [= <-]. apply heap_rel_same; try done. apply heap_rel_refl.
  - intros [= <-]. apply heap_rel_same; try done. apply heap_rel_refl.
  - intros [= <-]. apply heap_rel_same; try done.
    apply SetEnabledByCategory_rel.
  - intros [= <-]. apply heap_rel_same; try done. apply SetEnabledByID_rel.
  - intros Hc. by eapply performLog_same.
  - intros Hc. by eapply performLog_same.
  - intros Hc. by eapply performLog_same.
  - intros Hc. apply assign_rel in Hc as [Hr ->]; [|done].
    apply heap_rel_same; done.
  - intros Hc. apply assign_rel in Hc as [Hr ->]; [|done].
    apply heap_rel_same; done.
  - intros Hc. apply assign_rel in Hc as [Hr ->]; [|done].
    apply heap_rel_same; done.
  - intros Hc. apply assign_rel in Hc as [Hr ->]; [|done].
    apply heap_rel_same; done.
  - intros Hc. apply assign_rel in Hc as [Hr ->]; [|done].
    apply heap_rel_same; done.
  - intros [= <-]. apply heap_rel_same; try done. apply heap_rel_refl.
  - unfold poll. destruct (polling st);
      [|intros [= <-]; apply heap_rel_same; try done; apply heap_rel_refl].
    destruct ch.
    + destruct (logQueue st) as [|q rest];
        [intros [= <-]; apply heap_rel_same; try done; apply heap_rel_refl|].
      intros Hc%performWrite_same.
      destruct Hc as (? & ? & ? & ? & ?). by repeat split.
    + destruct (logQueueBuffer st) as [|q rest];
        [intros [= <-]; apply heap_rel_same; try done; apply heap_rel_refl|].
      intros Hc%performWrite_same.
      destruct Hc as (? & ? & ? & ? & ?). by repeat split.
    + destruct (exitCh st); intros [= <-];
        apply heap_rel_same; try done; apply heap_rel_refl.
Qed.

Lemma exec_inv (st st' : State) (c : call) (evs : list loc) :
  registry_inv st evs →
  exec st c = Done st' →
  registry_inv st' (evs ++ registers st c).
Proof.
  intros Hinv Hc. pose proof (exec_same st st' c evs Hinv Hc) as Hsame.
  destruct c as [handle cat enabled | cc ct cm cw ce | ps | enabled | enabled
                 | useBuffer | enabled cats | loggerID | l0 now msg
                 | l0 now format args | l0 now msg | l0 | l0 | l0 w
                 | l0 c0 | l0 t0 | l0 m0 | | ch];
    simpl in Hc |- *; rewrite ?app_nil_r;
    try (by apply (same_registry_inv st st' evs Hinv Hsame)).
  - injection Hc as <-.
    by apply (registered_at_inv st evs (fresh (dom (heap st)))
                (mkLogger (Category.mk (Some SquareBracketWrapper) cat)
                   (Timestamp.mk "01/02 15:04:05" None) (Message.mk None)
                   handle enabled (highestLoggerID st + 1) false false "" 0)).
  - by apply (AddLogger_inv ps st st' evs).
  - injection Hc as <-. destruct Hinv as [Hh Hl Hi]. by split.
  - by apply (assign_inv (Logger_with_Category c0) st st' l0 evs).
Qed.

(** The width stays up to date as [width_step] says. *)
Lemma exec_width (st st' : State) (c : call) (evs : list loc)
    (current : bool) :
  registry_inv st evs →
  (current = true → width_inv st) →
  exec st c = Done st' →
  width_step current c = true → width_inv st'.
Proof.
  intros Hinv Hw Hc. pose proof (exec_same st st' c evs Hinv Hc) as Hsame.
  destruct c as [handle cat enabled | cc ct cm cw ce | ps | enabled | enabled
                 | useBuffer | enabled cats | loggerID | l0 now msg
                 | l0 now format args | l0 now msg | l0 | l0 | l0 w
                 | l0 c0 | l0 t0 | l0 m0 | | ch];
    simpl in Hc |- *;
    try (intros Hcur;
         by apply (same_registry_width st st' evs Hinv (Hw Hcur) Hsame)).
  - intros _. injection Hc as <-.
    exact (registered_at_width st (fresh (dom (heap st)))
             (mkLogger (Category.mk (Some SquareBracketWrapper) cat)
                (Timestamp.mk "01/02 15:04:05" None) (Message.mk None)
                handle enabled (highestLoggerID st + 1) false false "" 0)).
  - intros Hcur. apply (AddLogger_width ps st st' Hc).
    intros ->. by apply Hw.
  - intros _. injection Hc as <-.
    destruct enabled; [|done]. intros _. exact (SetCategoryPadding_widest st).
  - done.
Qed.

Lemma run_inv (cs : list call) (st st' : State) (evs : list loc) :
  registry_inv st evs →
  run st cs = Done st' →
  registry_inv st' (evs ++ registrations st cs).
Proof.
  revert st evs. induction cs as [|c cs IH]; intros st evs Hinv; simpl.
  - intros [= <-]. by rewrite app_nil_r.
  - destruct (exec st c) as [st1|] eqn:Hc; [|done].
    rewrite bind_Done. intros Hrest. rewrite app_assoc.
    apply (IH st1); [by apply exec_inv | done].
Qed.

Lemma reachable_inv (st : State) :
  reachable st → ∃ evs, registry_inv st evs.
Proof.
  intros [cs Hrun]. exists (registrations declared cs).
  apply (run_inv cs declared st [] declared_inv Hrun).
Qed.

Lemma run_width (cs : list call) (st st' : State) (evs : list loc)
    (current : bool) :
  registry_inv st evs →
  (current = true → width_inv st) →
  run st cs = Done st' →
  foldl width_step current cs = true → width_inv st'.
Proof.
  revert st evs current.
  induction cs as [|c cs IH]; intros st evs current Hinv Hw; simpl.
  - intros [= <-]. exact Hw.
  - destruct (exec st c) as [st1|] eqn:Hc; [|done].
    rewrite bind_Done. intros Hrest.
    apply (IH st1 (evs ++ registers st c) (width_step current c));
      [by apply exec_inv | | done].
    by apply (exec_width st st1 c evs current).
Qed.

Lemma current_width (cs : list call) (st : State) :
  run declared cs = Done st → width_current cs = true → width_inv st.
Proof.
  intros Hrun Hcur.
  apply (run_width cs declared st [] true declared_inv (λ _, declared_width)
           Hrun Hcur).
Qed.

End Runs.
Section RegistryClaims.
Context `{GoStd}.

Lemma reachable_nonneg (st : State) (p : loc) (lg : Logger) :
  reachable st → p ∈ loggers st → heap st !! p = Some lg → (0 ≤ id lg)%Z.
Proof.
  intros [evs [_ _ Hi]]%reachable_inv Hp Hlg.
  destruct (Hi p Hp) as (lg' & Hlg' & H0 & _). congruence.
Qed.

(** With padding enabled and the width up to date, the item of a
    registered logger fits, and its category and padding together are
    one byte wider than the widest registered category: the timestamp of
    every such line starts in the same column. *)
Lemma registered_timestamp_column (cs : list call) (st : State) (p : loc)
    (lg : Logger) (q : queueItem) :
  run declared cs = Done st → width_current cs = true →
  categoryPadding st = true →
  p ∈ loggers st → heap st !! p = Some lg → category q = Category lg →
  paddingFits st q ∧
  len (writtenCategory st q +:+ writtenPadding st q)
  = (maxCategorySize st + 1)%Z.
Proof.
  intros Hrun Hcur Hpad Hp Hlg Hq.
  pose proof (current_width cs st Hrun Hcur) as Hw.
  destruct (Hw Hpad) as (_ & Hub & _). specialize (Hub p lg Hp Hlg).
  assert (Hfit : paddingFits st q).
  { intros _. rewrite Hq. lia. }
  split; [done|].
  rewrite len_append. unfold len at 1. rewrite writtenCategory_length.
  unfold writtenPadding. rewrite Hpad, len_spaces.
  specialize (Hfit Hpad). unfold len in *. lia.
Qed.


(** C7, amended: the identity of a registered logger is the position,
    counted from 0, of its latest registration among all registrations.
    So two registered loggers never share an identity, a later
    registration gets the larger identity and the first one gets 0; and
    when no logger is registered twice, the logger of registration [k]
    has identity [k], the identities being 0, 1, 2, ... without a gap. *)
Theorem identities_follow_registrations (cs : list call) (st : State) :
  run declared cs = Done st →
  let evs := registrations declared cs in
  highestLoggerID st = (Z.of_nat (length evs) - 1)%Z ∧
  (∀ p, p ∈ loggers st ↔ p ∈ evs) ∧
  (∀ p, p ∈ loggers st →
     ∃ lg, heap st !! p = Some lg ∧ (0 ≤ id lg)%Z ∧
           evs !! Z.to_nat (id lg) = Some p ∧
           ∀ j, (Z.to_nat (id lg) < j)%nat → evs !! j ≠ Some p) ∧
  (∀ p q lp lq,
     p ∈ loggers st → q ∈ loggers st →
     heap st !! p = Some lp → heap st !! q = Some lq →
     id lp = id lq → p = q) ∧
  (NoDup evs →
   ∀ k p, evs !! k = Some p →
          ∃ lg, p ∈ loggers st ∧ heap st !! p = Some lg ∧
                id lg = Z.of_nat k).
Proof.
  intros Hrun evs.
  pose proof (run_inv cs declared st [] declared_inv Hrun) as Hinv.
  simpl in Hinv. fold evs in Hinv. destruct Hinv as [Hh Hl Hi].
  split; [done|]. split; [done|]. split; [done|]. split.
  - intros p q lp lq Hp Hq Hlp Hlq Hid.
    destruct (Hi p Hp) as (lp' & Hlp' & _ & Hep & _).
    destruct (Hi q Hq) as (lq' & Hlq' & _ & Heq & _).
    rewrite Hlp in Hlp'. injection Hlp' as <-.
    rewrite Hlq in Hlq'. injection Hlq' as <-.
    rewrite Hid in Hep. congruence.
  - intros Hnd k p Hk.
    assert (Hp : p ∈ loggers st).
    { apply Hl. by apply list_elem_of_lookup_2 with k. }
    destruct (Hi p Hp) as (lg & Hlg & H0 & Hev & _).
    exists lg. split; [done|]. split; [done|].
    pose proof (NoDup_lookup _ _ _ _ Hnd Hk Hev) as ->. lia.
Qed.

(** C6: after [SetEnabledByID] a registered logger is enabled exactly
    when its identity is at most the threshold, whatever it was before,
    and nothing else about the registry changes; the identities of a
    reachable state are not negative, so a negative threshold disables
    every registered logger. *)
Theorem SetEnabledByID_replaces (st : State) (loggerID : Z) :
  loggers (SetEnabledByID st loggerID) = loggers st ∧
  (∀ p lg, p ∈ loggers st → heap st !! p = Some lg →
     heap (SetEnabledByID st loggerID) !! p
     = Some (Logger_with_Enabled (bool_decide (id lg ≤ loggerID)%Z) lg)) ∧
  (∀ p, p ∉ loggers st →
     heap (SetEnabledByID st loggerID) !! p = heap st !! p) ∧
  (∀ p lg, reachable st → (loggerID < 0)%Z →
     p ∈ loggers st → heap st !! p = Some lg →
     heap (SetEnabledByID st loggerID) !! p
     = Some (Logger_with_Enabled false lg)).
Proof.
  split; [done|]. split; [|split].
  - intros p lg Hp Hlg.
    destruct (SetEnabledByID_lookup st loggerID p) as [Hin _].
    by rewrite (Hin Hp), Hlg.
  - intros p Hp. by apply SetEnabledByID_lookup.
  - intros p lg Hreach Hneg Hp Hlg.
    destruct (SetEnabledByID_lookup st loggerID p) as [Hin _].
    rewrite (Hin Hp), Hlg. simpl. rewrite bool_decide_eq_false_2; [done|].
    pose proof (reachable_nonneg st p lg Hreach Hp Hlg). lia.
Qed.

End RegistryClaims.



(** ** Scenarios *)

(** Padding enabled and composed categories of lengths 3, 7 and 0: the
    width is 7 and every timestamp starts in column 8. *)
Example threeWidths_aligned :
  ∃ st, run declared threeWidths = Done st ∧
        maxCategorySize st = 7%Z ∧
        output st =
          [(os_Stdout, "[A]     04/27 15:25:47 one" +:+ nl);
           (os_Stderr, "[ERROR] 04/27 15:25:47 two" +:+ nl);
           (os_Stdout, "        04/27 15:25:47 three" +:+ nl)].
Proof.
  eexists. split; [vm_compute; reflexivity|].
  split; vm_compute; reflexivity.
Qed.

(** The label shows on the first [ERROR] line, is blank on the second,
    and shows again after a line of another logger. *)
Example grouping_scenario :
  ∃ st, run declared groupingProgram = Done st ∧
        output st =
          [(os_Stderr, "[ERROR] 04/27 15:25:47 no. 1" +:+ nl);
           (os_Stderr, "        04/27 15:25:47 no. 2" +:+ nl);
           (os_Stdout, "[INFO]  04/27 15:25:47 between" +:+ nl);
           (os_Stderr, "[ERROR] 04/27 15:25:47 no. 3" +:+ nl)].
Proof.
  eexists. split; [vm_compute; reflexivity|]. vm_compute. reflexivity.
Qed.

(** Identities 0 to 3: the threshold 1 leaves 0 and 1 enabled, the
    threshold -1 none. *)
Example fourLoggers_threshold :
  ∃ st, run declared fourLoggers = Done st ∧
        enabledByIdentity st
        = [(2, true); (3, false); (1, false); (0, true)]%Z ∧
        enabledByIdentity (SetEnabledByID st 1)
        = [(2, false); (3, false); (1, true); (0, true)]%Z ∧
        enabledByIdentity (SetEnabledByID st (-1))
        = [(2, false); (3, false); (1, false); (0, false)]%Z.
Proof.
  eexists. split; [vm_compute; reflexivity|].
  split; [|split]; vm_compute; reflexivity.
Qed.

Lemma identities_follow_registrations_witness :
  let cs := fourLoggers in
  let st := match run declared cs with Done st => st | Panicked _ => declared end in
  let evs := registrations declared cs in
  highestLoggerID st = (Z.of_nat (length evs) - 1)%Z ∧
  (∀ p, p ∈ loggers st ↔ p ∈ evs) ∧
  (∀ p, p ∈ loggers st →
     ∃ lg, heap st !! p = Some lg ∧ (0 ≤ id lg)%Z ∧
           evs !! Z.to_nat (id lg) = Some p ∧
           ∀ j, (Z.to_nat (id lg) < j)%nat → evs !! j ≠ Some p) ∧
  (∀ p q lp lq,
     p ∈ loggers st → q ∈ loggers st →
     heap st !! p = Some lp → heap st !! q = Some lq →
     id lp = id lq → p = q) ∧
  (NoDup evs →
   ∀ k p, evs !! k = Some p →
          ∃ lg, p ∈ loggers st ∧ heap st !! p = Some lg ∧
                id lg = Z.of_nat k).
Proof.
  apply (@identities_follow_registrations reference fourLoggers).
  vm_compute. reflexivity.
Defined.

(** C7, as stated, fails: a logger made by [NewLogger] and handed to
    [AddLogger] is given a second identity.  The registered loggers
    then hold the identities 0 and 2, and none holds 1. *)
Lemma reregistration_leaves_gap :
  ∃ st, run declared registeredTwice = Done st ∧
        elements (loggers st) = [2%positive; 1%positive] ∧
        id <$> heap st !! 1%positive = Some 0%Z ∧
        id <$> heap st !! 2%positive = Some 2%Z ∧
        ¬ ∃ p lg, p ∈ loggers st ∧ heap st !! p = Some lg ∧ id lg = 1%Z.
Proof.
  eexists. split; [vm_compute; reflexivity|].
  split; [vm_compute; reflexivity|].
  split; [vm_compute; reflexivity|].
  split; [vm_compute; reflexivity|].
  intros (p & lg & Hp & Hlg & Hid).
  apply elem_of_elements in Hp.
  match type of Hp with _ ∈ ?l =>
    assert (Hel : l = [2%positive; 1%positive]) by (vm_compute; reflexivity)
  end.
  rewrite Hel in Hp.
  apply elem_of_cons in Hp as [-> | Hp];
    [|apply elem_of_cons in Hp as [-> | Hp]; [|by apply elem_of_nil in Hp]].
  - vm_compute in Hlg. injection Hlg as <-. discriminate Hid.
  - vm_compute in Hlg. injection Hlg as <-. discriminate Hid.
Qed.

(** * Further properties *)

(** ** More on the write step *)

Lemma Compose_unnamed (c : Category.t) :
  Category.Name c = "" → Category.Compose c = "".
Proof.
  intros Hn. unfold Category.Compose. rewrite Hn.
  by destruct (Category.Formatter c).
Qed.

Lemma paddingFits_frame (st st' : State) (q : queueItem) :
  categoryPadding st' = categoryPadding st →
  maxCategorySize st' = maxCategorySize st →
  paddingFits st q → paddingFits st' q.
Proof. unfold paddingFits. intros -> ->. done. Qed.

(** X1: once padding is switched off the write step cannot fail on the
    padding: every item with a writer is written, a named category
    followed by one space, an unnamed one by nothing, so that the line
    of a logger without category is its message alone. *)
Theorem performWrite_padding_off (st : State) (q : queueItem) (k : sink) :
  writer q = Some k →
  ∃ st',
    performWrite (SetCategoryPadding st false) q = Done st' ∧
    output st' =
      output st ++
        [(k, writtenCategory st q
               +:+ (if String.eqb (Category.Name (category q)) ""
                    then "" else " ")
               +:+ message q +:+ nl)] ∧
    (Category.Name (category q) = "" →
     output st' = output st ++ [(k, message q +:+ nl)]).
Proof.
  intros Hk.
  assert (Hfit : paddingFits (SetCategoryPadding st false) q) by done.
  eexists. split; [by apply (performWrite_Done _ q k)|].
  split; [done|]. intros Hn. simpl.
  unfold writtenCategory, writtenPadding. simpl.
  rewrite (Compose_unnamed _ Hn), Hn. simpl.
  by destruct (categoryGrouping st && _)%bool.
Qed.

Lemma performWrite_padding_off_witness :
  ∃ st',
    performWrite (SetCategoryPadding initial false) literalItem = Done st' ∧
    output st' =
      output initial ++
        [(os_Stderr, writtenCategory initial literalItem
               +:+ (if String.eqb (Category.Name (category literalItem)) ""
                    then "" else " ")
               +:+ message literalItem +:+ nl)] ∧
    (Category.Name (category literalItem) = "" →
     output st' = output initial ++ [(os_Stderr, message literalItem +:+ nl)]).
Proof.
  apply (performWrite_padding_off initial literalItem os_Stderr). reflexivity.
Defined.

(** X2: whatever state the width was left in, after
    [SetCategoryPadding(true)] the item of any registered logger is
    written, and its category and padding together are one byte wider
    than the new width. *)
Theorem SetCategoryPadding_restores (st : State) (p : loc) (lg : Logger)
    (q : queueItem) (k : sink) :
  p ∈ loggers st → heap st !! p = Some lg →
  category q = Category lg → writer q = Some k →
  let st1 := SetCategoryPadding st true in
  ∃ st',
    performWrite st1 q = Done st' ∧
    output st' =
      output st ++ [(k, writtenCategory st1 q +:+ writtenPadding st1 q
                          +:+ message q +:+ nl)] ∧
    len (writtenCategory st1 q +:+ writtenPadding st1 q)
    = (maxCategorySize st1 + 1)%Z.
Proof.
  intros Hp Hlg Hq Hk st1.
  destruct (SetCategoryPadding_widest st) as (_ & Hub & _).
  specialize (Hub p lg Hp Hlg). fold st1 in Hub.
  assert (Hfit : paddingFits st1 q).
  { intros _. rewrite Hq. lia. }
  eexists. split; [by apply (performWrite_Done _ q k)|]. split; [done|].
  rewrite len_append. unfold len at 1. rewrite writtenCategory_length.
  unfold writtenPadding.
  change (categoryPadding st1) with true. cbv iota.
  rewrite len_spaces. specialize (Hfit eq_refl). unfold len in *. lia.
Qed.

(** X3: grouping looks one write back and no further: after a write of
    [q1] has completed, the next item is written with a blank category
    exactly when grouping is enabled and it has the category name of
    [q1], whichever loggers the two items came from. *)
Theorem performWrite_twice (st st1 : State) (q1 q2 : queueItem) (k : sink) :
  performWrite st q1 = Done st1 →
  writer q2 = Some k →
  paddingFits st q2 →
  ∃ st2,
    performWrite st1 q2 = Done st2 ∧
    output st2 =
      output st1 ++
        [(k, (if categoryGrouping st
                 && String.eqb (Category.Name (category q1))
                      (Category.Name (category q2))
              then repeat_string " "
                     (String.length (Category.Compose (category q2)))
              else Category.Compose (category q2))
               +:+ writtenPadding st q2 +:+ message q2 +:+ nl)] ∧
    previousCategory st2 = Category.Name (category q2).
Proof.
  intros Hw1 Hk Hfit.
  assert (∃ k1, writer q1 = Some k1 ∧ paddingFits st q1) as (k1 & Hk1 & Hfit1).
  { destruct (proj1 (performWrite_completes st q1)) as [[k1 Hk1] Hf];
      [by rewrite Hw1 | by eauto]. }
  rewrite (performWrite_Done st q1 k1 Hk1 Hfit1) in Hw1.
  injection Hw1 as <-.
  eexists. split.
  - apply (performWrite_Done _ q2 k Hk). by apply (paddingFits_frame st).
  - done.
Qed.

(** ** Enabling by category and by identity *)

Lemma matches_elem_of (categories : list string) (lg : Logger) :
  matches categories lg = true ↔ Category.Name (Category lg) ∈ categories.
Proof.
  unfold matches. rewrite existsb_exists. split.
  - intros (c & Hc & ->%String.eqb_eq). by apply list_elem_of_In.
  - intros Hc. exists (Category.Name (Category lg)).
    split; [by apply list_elem_of_In | apply String.eqb_refl].
Qed.

Lemma with_heap_id (st : State) : with_heap (heap st) st = st.
Proof. by destruct st. Qed.

Lemma categories_loop (enabled : bool) (l : loc) (categories : list string)
    (h : gmap loc Logger) :
  foldl (λ h c,
           match h !! l with
           | Some lg =>
               if String.eqb (Category.Name (Category lg)) c
               then <[l := Logger_with_Enabled enabled lg]> h
               else h
           | None => h
           end) h categories
  = match h !! l with
    | Some lg =>
        if matches categories lg
        then <[l := Logger_with_Enabled enabled lg]> h else h
    | None => h
    end.
Proof.
  revert h. induction categories as [|c cs IH]; intros h.
  - simpl. by destruct (h !! l).
  - cbn [foldl]. rewrite IH. destruct (h !! l) as [lg|] eqn:Hl.
    + unfold matches. cbn [existsb].
      destruct (String.eqb (Category.Name (Category lg)) c) eqn:Hc.
      * rewrite lookup_insert_eq. simpl.
        change (Category.Name (Category (Logger_with_Enabled enabled lg)))
          with (Category.Name (Category lg)).
        change (Logger_with_Enabled enabled (Logger_with_Enabled enabled lg))
          with (Logger_with_Enabled enabled lg).
        rewrite insert_insert_eq. by destruct (existsb _ cs).
      * rewrite Hl. done.
    + by rewrite Hl.
Qed.

Lemma SetEnabledByCategory_lookup (st : State) (enabled : bool)
    (categories : list string) (p : loc) :
  (p ∈ loggers st →
   heap (SetEnabledByCategory st enabled categories) !! p
   = (λ lg, if matches categories lg
            then Logger_with_Enabled enabled lg else lg) <$> heap st !! p) ∧
  (p ∉ loggers st →
   heap (SetEnabledByCategory st enabled categories) !! p = heap st !! p).
Proof.
  unfold SetEnabledByCategory. simpl. revert p.
  apply (set_fold_ind_L
           (λ (h : gmap loc Logger) (X : gset loc),
              ∀ p, (p ∈ X →
                    h !! p = (λ lg, if matches categories lg
                                    then Logger_with_Enabled enabled lg
                                    else lg) <$> heap st !! p) ∧
                   (p ∉ X → h !! p = heap st !! p))).
  - intros p. split; [|done]. intros Hp. by apply not_elem_of_empty in Hp.
  - intros x X h Hx IH p. rewrite categories_loop.
    assert (Hhx : h !! x = heap st !! x) by by apply IH.
    destruct (decide (p = x)) as [-> | Hne].
    + split; [intros _ | intros Hn; contradict Hn;
                           apply elem_of_union_l; by apply elem_of_singleton].
      rewrite Hhx. destruct (heap st !! x) as [lg|] eqn:Hl; simpl; [|done].
      destruct (matches categories lg); [by rewrite lookup_insert_eq | done].
    + assert (h !! p = (match h !! x with
                        | Some lg =>
                            if matches categories lg
                            then <[x := Logger_with_Enabled enabled lg]> h
                            else h
                        | None => h
                        end) !! p) as <-.
      { destruct (h !! x) as [lg|]; [|done].
        destruct (matches categories lg); [by rewrite lookup_insert_ne | done]. }
      split; intros Hp; apply IH.
      * apply elem_of_union in Hp as [Hp%elem_of_singleton | Hp]; done.
      * contradict Hp. by apply elem_of_union_r.
Qed.

(** X4: [SetEnabledByCategory] sets the flag of exactly the registered
    loggers whose category name is, byte for byte, one of the names
    given, and leaves every other logger, registered or not, as it was;
    with no name given it changes nothing at all. *)
Theorem SetEnabledByCategory_exact (st : State) (enabled : bool)
    (categories : list string) :
  loggers (SetEnabledByCategory st enabled categories) = loggers st ∧
  (∀ p lg, p ∈ loggers st → heap st !! p = Some lg →
     heap (SetEnabledByCategory st enabled categories) !! p
     = Some (if decide (Category.Name (Category lg) ∈ categories)
             then Logger_with_Enabled enabled lg else lg)) ∧
  (∀ p, p ∉ loggers st →
     heap (SetEnabledByCategory st enabled categories) !! p = heap st !! p) ∧
  SetEnabledByCategory st enabled [] = st.
Proof.
  split; [done|]. split; [|split].
  - intros p lg Hp Hlg.
    destruct (SetEnabledByCategory_lookup st enabled categories p) as [Hin _].
    rewrite (Hin Hp), Hlg. simpl. f_equal.
    destruct (matches categories lg) eqn:Hm.
    + apply matches_elem_of in Hm. by rewrite decide_True.
    + rewrite decide_False; [done|]. intros Hc%matches_elem_of. congruence.
  - intros p Hp. by apply SetEnabledByCategory_lookup.
  - assert (Hh : heap (SetEnabledByCategory st enabled []) = heap st).
    { apply map_eq. intros p.
      destruct (SetEnabledByCategory_lookup st enabled [] p) as [Hin Hout].
      destruct (decide (p ∈ loggers st)) as [Hp | Hp].
      - rewrite (Hin Hp). by destruct (heap st !! p).
      - by rewrite (Hout Hp). }
    change (SetEnabledByCategory st enabled [])
      with (with_heap (heap (SetEnabledByCategory st enabled [])) st).
    rewrite Hh. apply with_heap_id.
Qed.

Lemma SetEnabledByID_heap (st : State) (loggerID : Z) (p : loc) :
  heap (SetEnabledByID st loggerID) !! p
  = (λ lg, if decide (p ∈ loggers st)
           then Logger_with_Enabled (bool_decide (id lg ≤ loggerID)%Z) lg
           else lg) <$> heap st !! p.
Proof.
  destruct (SetEnabledByID_lookup st loggerID p) as [Hin Hout].
  destruct (decide (p ∈ loggers st)) as [Hp | Hp].
  - by rewrite (Hin Hp).
  - rewrite (Hout Hp). by destruct (heap st !! p).
Qed.

(** X5: [SetEnabledByID] forgets what was enabled before: a second call
    gives the state the second call alone would give.  Between two
    thresholds, what the lower one enables the higher one enables too. *)
Theorem SetEnabledByID_twice (st : State) (a b : Z) :
  SetEnabledByID (SetEnabledByID st a) b = SetEnabledByID st b ∧
  ((a ≤ b)%Z →
   ∀ p la lb, p ∈ loggers st →
     heap (SetEnabledByID st a) !! p = Some la →
     heap (SetEnabledByID st b) !! p = Some lb →
     Enabled la = true → Enabled lb = true).
Proof.
  split.
  - assert (Hh : heap (SetEnabledByID (SetEnabledByID st a) b)
                 = heap (SetEnabledByID st b)).
    { apply map_eq. intros p. rewrite !SetEnabledByID_heap.
      change (loggers (SetEnabledByID st a)) with (loggers st).
      destruct (heap st !! p) as [lg|]; [|done]. simpl.
      by destruct (decide (p ∈ loggers st)). }
    unfold SetEnabledByID at 1 3. unfold SetEnabledByID at 1 in Hh.
    unfold SetEnabledByID at 2 in Hh. simpl in Hh. unfold with_heap. simpl.
    by rewrite Hh.
  - intros Hab p la lb Hp. rewrite !SetEnabledByID_heap.
    destruct (heap st !! p) as [lg|]; [|done]. simpl.
    rewrite !decide_True by done. intros [= <-] [= <-]. simpl.
    rewrite !bool_decide_eq_true. lia.
Qed.

Lemma AddLogger_frame (newLoggers : list loc) (st st' : State) :
  AddLogger st newLoggers = Done st' →
  output st' = output st ∧ logQueue st' = logQueue st ∧
  logQueueBuffer st' = logQueueBuffer st ∧ polling st' = polling st ∧
  exitCh st' = exitCh st ∧ previousCategory st' = previousCategory st ∧
  ∀ l, match heap st !! l with
       | Some lg => ∃ i, heap st' !! l = Some (Logger_with_id i lg)
       | None => heap st' !! l = None
       end.
Proof.
  revert st. induction newLoggers as [|p ps IH]; intros st; simpl.
  - intros [= <-]. repeat split; try done.
    intros l. destruct (heap st !! l) as [lg|] eqn:Hl; [|done].
    exists (id lg). by destruct lg.
  - destruct (AddLogger_step st p) as [st1|] eqn:Hstep; [|done].
    rewrite bind_Done. intros Hrest.
    apply AddLogger_step_registered in Hstep as (lgp & Hlgp & ->).
    destruct (IH _ Hrest) as (Ho & Hq & Hb & Hpo & He & Hpr & Hh).
    repeat split; try done.
    intros l. specialize (Hh l). simpl in Hh.
    destruct (decide (p = l)) as [<- | Hne].
    + rewrite lookup_insert_eq in Hh. rewrite Hlgp.
      destruct Hh as [i Hi]. by exists i.
    + by rewrite lookup_insert_ne in Hh.
Qed.

Lemma performWrite_inv (st st' : State) (q : queueItem) :
  performWrite st q = Done st' →
  ∃ k, writer q = Some k ∧ paddingFits st q ∧
       st' = with_written
               (output st ++
                  [(k, writtenCategory st q +:+ writtenPadding st q
                         +:+ message q +:+ nl)])
               (Category.Name (category q)) st.
Proof.
  intros Hw.
  destruct (proj1 (performWrite_completes st q)) as [[k Hk] Hfit];
    [by rewrite Hw|].
  rewrite (performWrite_Done st q k Hk Hfit) in Hw. injection Hw as <-.
  by exists k.
Qed.

Lemma send_polling (st : State) (q : queueItem) :
  polling (send st q) = polling st ∧ exitCh (send st q) = exitCh st ∧
  previousCategory (send st q) = previousCategory st.
Proof. unfold send. by destruct (bufferEnabled st). Qed.

Section RunLemmas.
Context `{GoStd}.

Lemma performLog_step (st st' : State) (l : loc) (now : Time)
    (message : string) (newline : bool) :
  Logger_performLog st l now message newline = Done st' →
  ∃ lg, heap st !! l = Some lg ∧
        if Enabled lg
        then st' = send (counted st l lg) (submitted lg now message newline)
        else st' = st.
Proof.
  intros Hrun.
  destruct (heap st !! l) as [lg|] eqn:Hlg;
    [|unfold Logger_performLog in Hrun; by rewrite Hlg in Hrun].
  exists lg. split; [done|]. destruct (Enabled lg) eqn:He.
  - rewrite (performLog_enabled st l lg now message newline Hlg He) in Hrun.
    by injection Hrun.
  - rewrite (performLog_disabled st l lg now message newline Hlg He) in Hrun.
    by injection Hrun.
Qed.

Lemma counts_step_same (st st' : State) :
  heap st' = heap st → counts_step st st' (λ _, 0%nat).
Proof.
  intros Hh l. rewrite Hh. destruct (heap st !! l) as [lg|]; [|done].
  exists lg. split; [done | simpl; lia].
Qed.

Lemma counts_step_alloc (st st' : State) (p : loc) (lg : Logger) :
  heap st !! p = None → count lg = 0%Z → heap st' = <[p := lg]> (heap st) →
  counts_step st st' (λ _, 0%nat).
Proof.
  intros Hp Hc Hh l. rewrite Hh. destruct (decide (p = l)) as [<- | Hne].
  - rewrite Hp, lookup_insert_eq. by intros lg' [= <-].
  - rewrite lookup_insert_ne by done.
    destruct (heap st !! l) as [lg0|]; [|done].
    exists lg0. split; [done | simpl; lia].
Qed.

Lemma counts_step_update (st st' : State) (p : loc) (lg lg' : Logger)
    (k : nat) :
  heap st !! p = Some lg → heap st' = <[p := lg']> (heap st) →
  count lg' = (count lg + Z.of_nat k)%Z →
  counts_step st st' (λ l, if decide (p = l) then k else 0%nat).
Proof.
  intros Hp Hh Hc l. rewrite Hh. destruct (decide (p = l)) as [<- | Hne].
  - rewrite Hp, lookup_insert_eq. by exists lg'.
  - rewrite lookup_insert_ne by done.
    destruct (heap st !! l) as [lg0|]; [|done].
    exists lg0. split; [done | simpl; lia].
Qed.

Lemma counts_step_ext (st st' : State) (n m : loc → nat) :
  (∀ l, is_Some (heap st !! l) → n l = m l) →
  counts_step st st' n → counts_step st st' m.
Proof.
  intros Hnm Hs l. specialize (Hs l).
  destruct (heap st !! l) as [lg|] eqn:Hl; [|done].
  rewrite <-Hnm; [done | by rewrite Hl].
Qed.

Lemma fresh_unallocated (st : State) : heap st !! fresh (dom (heap st)) = None.
Proof. apply not_elem_of_dom. apply is_fresh. Qed.

Lemma exec_counts (st st' : State) (c : call) :
  exec st c = Done st' → counts_step st st' (accepted_by st c).
Proof.
  destruct c as [handle cat enabled | cc ct cm cw ce | ps | enabled | enabled
                 | useBuffer | enabled cats | loggerID | l0 now msg
                 | l0 now format args | l0 now msg | l0 | l0 | l0 w
                 | l0 c0 | l0 t0 | l0 m0 | | ch];
    cbn [exec]; intros Hc.
  - injection Hc as <-.
    apply counts_step_ext with (λ _, 0%nat);
      [intros l _; unfold accepted_by; simpl; by destruct (heap st !! l)|].
    eapply counts_step_alloc; [apply fresh_unallocated | | reflexivity]. done.
  - injection Hc as <-.
    apply counts_step_ext with (λ _, 0%nat);
      [intros l _; unfold accepted_by; simpl; by destruct (heap st !! l)|].
    eapply counts_step_alloc; [apply fresh_unallocated | | reflexivity]. done.
  - apply AddLogger_frame in Hc as (_ & _ & _ & _ & _ & _ & Hh).
    intros l. specialize (Hh l). unfold accepted_by. simpl.
    destruct (heap st !! l) as [lg|]; [|by rewrite Hh].
    destruct Hh as [i Hi]. eexists. split; [done | simpl; lia].
  - injection Hc as <-.
    apply counts_step_ext with (λ _, 0%nat);
      [intros l _; unfold accepted_by; simpl; by destruct (heap st !! l)|].
    by apply counts_step_same.
  - injection Hc as <-.
    apply counts_step_ext with (λ _, 0%nat);
      [intros l _; unfold accepted_by; simpl; by destruct (heap st !! l)|].
    by apply counts_step_same.
  - injection Hc as <-.
    apply counts_step_ext with (λ _, 0%nat);
      [intros l _; unfold accepted_by; simpl; by destruct (heap st !! l)|].
    by apply counts_step_same.
  - injection Hc as <-. intros l. unfold accepted_by. cbn [logs_on].
    destruct (SetEnabledByCategory_lookup st enabled cats l) as [Hin Hout].
    destruct (heap st !! l) as [lg|] eqn:Hl.
    + destruct (decide (l ∈ loggers st)) as [Hp | Hp].
      * rewrite (Hin Hp). simpl. eexists. split; [done|].
        destruct (matches cats lg); simpl; lia.
      * rewrite (Hout Hp). exists lg. split; [done | lia].
    + destruct (decide (l ∈ loggers st)) as [Hp | Hp].
      * by rewrite (Hin Hp).
      * by rewrite (Hout Hp).
  - injection Hc as <-. intros l. unfold accepted_by. cbn [logs_on].
    rewrite SetEnabledByID_heap.
    destruct (heap st !! l) as [lg|] eqn:Hl; [|done]. simpl.
    eexists. split; [done|]. destruct (decide (l ∈ loggers st)); simpl; lia.
  - apply performLog_step in Hc as (lg & Hlg & Hst).
    apply counts_step_ext
      with (λ l, if decide (l0 = l) then if Enabled lg then 1%nat else 0%nat
                 else 0%nat).
    { intros l [lg' Hl]. unfold accepted_by. simpl. rewrite Hl.
      destruct (decide (l0 = l)) as [<- | Hne]; [|done].
      rewrite Hlg in Hl. by injection Hl as <-. }
    destruct (Enabled lg).
    + subst st'. eapply counts_step_update; [done | | ].
      * destruct (send_frame (counted st l0 lg)
                    (submitted lg now (fmt_Sprint msg) false)) as (Hh & _).
        rewrite Hh. reflexivity.
      * simpl. lia.
    + subst st'. apply counts_step_ext with (λ _, 0%nat);
        [intros l _; by destruct (decide (l0 = l)) | by apply counts_step_same].
  - apply performLog_step in Hc as (lg & Hlg & Hst).
    apply counts_step_ext
      with (λ l, if decide (l0 = l) then if Enabled lg then 1%nat else 0%nat
                 else 0%nat).
    { intros l [lg' Hl]. unfold accepted_by. simpl. rewrite Hl.
      destruct (decide (l0 = l)) as [<- | Hne]; [|done].
      rewrite Hlg in Hl. by injection Hl as <-. }
    destruct (Enabled lg).
    + subst st'. eapply counts_step_update; [done | | ].
      * destruct (send_frame (counted st l0 lg)
                    (submitted lg now (fmt_Sprintf format args) false))
          as (Hh & _).
        rewrite Hh. reflexivity.
      * simpl. lia.
    + subst st'. apply counts_step_ext with (λ _, 0%nat);
        [intros l _; by destruct (decide (l0 = l)) | by apply counts_step_same].
  - apply performLog_step in Hc as (lg & Hlg & Hst).
    apply counts_step_ext
      with (λ l, if decide (l0 = l) then if Enabled lg then 1%nat else 0%nat
                 else 0%nat).
    { intros l [lg' Hl]. unfold accepted_by. simpl. rewrite Hl.
      destruct (decide (l0 = l)) as [<- | Hne]; [|done].
      rewrite Hlg in Hl. by injection Hl as <-. }
    destruct (Enabled lg).
    + subst st'. eapply counts_step_update; [done | | ].
      * destruct (send_frame (counted st l0 lg)
                    (submitted lg now (fmt_Sprint msg) true)) as (Hh & _).
        rewrite Hh. reflexivity.
      * simpl. lia.
    + subst st'. apply counts_step_ext with (λ _, 0%nat);
        [intros l _; by destruct (decide (l0 = l)) | by apply counts_step_same].
  - unfold Logger_Enable, assign in Hc.
    destruct (heap st !! l0) as [lg|] eqn:Hlg; [|done]. injection Hc as <-.
    apply counts_step_ext with (λ l, if decide (l0 = l) then 0%nat else 0%nat).
    { intros l _. unfold accepted_by. simpl.
      destruct (heap st !! l); by destruct (decide (l0 = l)). }
    eapply counts_step_update; [done | reflexivity | simpl; lia].
  - unfold Logger_Disable, assign in Hc.
    destruct (heap st !! l0) as [lg|] eqn:Hlg; [|done]. injection Hc as <-.
    apply counts_step_ext with (λ l, if decide (l0 = l) then 0%nat else 0%nat).
    { intros l _. unfold accepted_by. simpl.
      destruct (heap st !! l); by destruct (decide (l0 = l)). }
    eapply counts_step_update; [done | reflexivity | simpl; lia].
  - unfold Logger_SetOutput, assign in Hc.
    destruct (heap st !! l0) as [lg|] eqn:Hlg; [|done]. injection Hc as <-.
    apply counts_step_ext with (λ l, if decide (l0 = l) then 0%nat else 0%nat).
    { intros l _. unfold accepted_by. simpl.
      destruct (heap st !! l); by destruct (decide (l0 = l)). }
    eapply counts_step_update; [done | reflexivity | simpl; lia].
  - unfold Logger_SetCategory, assign in Hc.
    destruct (heap st !! l0) as [lg|] eqn:Hlg; [|done]. injection Hc as <-.
    apply counts_step_ext with (λ l, if decide (l0 = l) then 0%nat else 0%nat).
    { intros l _. unfold accepted_by. simpl.
      destruct (heap st !! l); by destruct (decide (l0 = l)). }
    eapply counts_step_update; [done | reflexivity | simpl; lia].
  - unfold Logger_SetTimestamp, assign in Hc.
    destruct (heap st !! l0) as [lg|] eqn:Hlg; [|done]. injection Hc as <-.
    apply counts_step_ext with (λ l, if decide (l0 = l) then 0%nat else 0%nat).
    { intros l _. unfold accepted_by. simpl.
      destruct (heap st !! l); by destruct (decide (l0 = l)). }
    eapply counts_step_update; [done | reflexivity | simpl; lia].
  - unfold Logger_SetMessage, assign in Hc.
    destruct (heap st !! l0) as [lg|] eqn:Hlg; [|done]. injection Hc as <-.
    apply counts_step_ext with (λ l, if decide (l0 = l) then 0%nat else 0%nat).
    { intros l _. unfold accepted_by. simpl.
      destruct (heap st !! l); by destruct (decide (l0 = l)). }
    eapply counts_step_update; [done | reflexivity | simpl; lia].
  - injection Hc as <-.
    apply counts_step_ext with (λ _, 0%nat);
      [intros l _; unfold accepted_by; simpl; by destruct (heap st !! l)|].
    by apply counts_step_same.
  - apply counts_step_ext with (λ _, 0%nat);
      [intros l _; unfold accepted_by; simpl; by destruct (heap st !! l)|].
    apply counts_step_same. unfold poll in Hc.
    destruct (polling st); [|by injection Hc as <-].
    destruct ch.
    + destruct (logQueue st) as [|q rest]; [by injection Hc as <-|].
      by apply performWrite_inv in Hc as (k & _ & _ & ->).
    + destruct (logQueueBuffer st) as [|q rest]; [by injection Hc as <-|].
      by apply performWrite_inv in Hc as (k & _ & _ & ->).
    + destruct (exitCh st); by injection Hc as <-.
Qed.

End RunLemmas.

Lemma written_step_quiet (st st' : State) (polled : bool) :
  output st' = output st → logQueue st' = logQueue st →
  logQueueBuffer st' = logQueueBuffer st →
  (polling st = false → polling st' = false) →
  written_step st st' polled 0 [].
Proof.
  intros Ho Hq Hb Hp. split.
  - by rewrite app_nil_r.
  - simpl. lia.
  - intros Hs. split; [done | by apply Hp].
  - unfold pending. rewrite Hq, Hb. simpl. lia.
Qed.

Section Written.
Context `{GoStd}.

Lemma performLog_written (st st' : State) (l : loc) (now : Time)
    (message : string) (newline : bool) (c : call) :
  logs_on c = Some l →
  Logger_performLog st l now message newline = Done st' →
  written_step st st' (is_poll c) (submitted_by st c) [].
Proof.
  intros Hon (lg & Hlg & Hst)%performLog_step.
  unfold submitted_by, accepted_by. rewrite Hon, Hlg.
  rewrite decide_True by done. destruct (Enabled lg).
  - subst st'.
    destruct (send_frame (counted st l lg) (submitted lg now message newline))
      as (_ & Ho & _).
    destruct (send_polling (counted st l lg)
                (submitted lg now message newline)) as (Hp & _).
    split.
    + rewrite Ho. simpl. by rewrite app_nil_r.
    + simpl. lia.
    + intros Hs. split; [done|]. by rewrite Hp.
    + pose proof (send_pending (counted st l lg)
                    (submitted lg now message newline)) as Hpe.
      unfold pending. simpl in *. lia.
  - subst st'. by apply written_step_quiet.
Qed.

Lemma exec_written (st st' : State) (c : call) :
  exec st c = Done st' →
  ∃ lines, written_step st st' (is_poll c) (submitted_by st c) lines.
Proof.
  destruct c as [handle cat enabled | cc ct cm cw ce | ps | enabled | enabled
                 | useBuffer | enabled cats | loggerID | l0 now msg
                 | l0 now format args | l0 now msg | l0 | l0 | l0 w
                 | l0 c0 | l0 t0 | l0 m0 | | ch];
    cbn [exec]; intros Hc.
  - injection Hc as <-. exists []. by apply written_step_quiet.
  - injection Hc as <-. exists []. by apply written_step_quiet.
  - apply AddLogger_frame in Hc as (Ho & Hq & Hb & Hp & _).
    exists []. apply written_step_quiet; try done. by rewrite Hp.
  - injection Hc as <-. exists []. by apply written_step_quiet.
  - injection Hc as <-. exists []. by apply written_step_quiet.
  - injection Hc as <-. exists []. by apply written_step_quiet.
  - injection Hc as <-. exists []. by apply written_step_quiet.
  - injection Hc as <-. exists []. by apply written_step_quiet.
  - exists []. by eapply performLog_written.
  - exists []. by eapply performLog_written.
  - exists []. by eapply performLog_written.
  - unfold Logger_Enable, assign in Hc.
    destruct (heap st !! l0); [|done]. injection Hc as <-.
    exists []. by apply written_step_quiet.
  - unfold Logger_Disable, assign in Hc.
    destruct (heap st !! l0); [|done]. injection Hc as <-.
    exists []. by apply written_step_quiet.
  - unfold Logger_SetOutput, assign in Hc.
    destruct (heap st !! l0); [|done]. injection Hc as <-.
    exists []. by apply written_step_quiet.
  - unfold Logger_SetCategory, assign in Hc.
    destruct (heap st !! l0); [|done]. injection Hc as <-.
    exists []. by apply written_step_quiet.
  - unfold Logger_SetTimestamp, assign in Hc.
    destruct (heap st !! l0); [|done]. injection Hc as <-.
    exists []. by apply written_step_quiet.
  - unfold Logger_SetMessage, assign in Hc.
    destruct (heap st !! l0); [|done]. injection Hc as <-.
    exists []. by apply written_step_quiet.
  - injection Hc as <-. exists []. by apply written_step_quiet.
  - unfold poll in Hc. destruct (polling st) eqn:Hpo;
      [|injection Hc as <-; exists []; by apply written_step_quiet].
    destruct ch.
    + destruct (logQueue st) as [|q rest] eqn:Hq;
        [injection Hc as <-; exists []; by apply written_step_quiet|].
      apply performWrite_inv in Hc as (k & _ & _ & ->).
      eexists [_]. split.
      * reflexivity.
      * simpl. lia.
      * intros Hs. congruence.
      * unfold pending, submitted_by. simpl. rewrite Hq. simpl. lia.
    + destruct (logQueueBuffer st) as [|q rest] eqn:Hq;
        [injection Hc as <-; exists []; by apply written_step_quiet|].
      apply performWrite_inv in Hc as (k & _ & _ & ->).
      eexists [_]. split.
      * reflexivity.
      * simpl. lia.
      * intros Hs. congruence.
      * unfold pending, submitted_by. simpl. rewrite Hq. simpl. lia.
    + destruct (exitCh st); injection Hc as <-; exists [];
        by apply written_step_quiet.
Qed.

(** X6: only the poller writes, one line at most for each receive: over
    any run, what the sinks have accepted grows at its end and by no
    more lines than there were receives; no call of the package removes
    or rewrites a line, and a log call writes none itself. *)
Theorem output_grows_by_polls (st st' : State) (cs : list call) :
  run st cs = Done st' →
  ∃ lines, output st' = output st ++ lines ∧
           (length lines ≤ polls cs)%nat ∧
           (polls cs = 0%nat → output st' = output st).
Proof.
  revert st. induction cs as [|c cs IH]; intros st; simpl.
  - intros [= <-]. exists []. by rewrite app_nil_r.
  - destruct (exec st c) as [st1|] eqn:Hc; [|done].
    rewrite bind_Done. intros Hrest.
    destruct (exec_written st st1 c Hc) as (l1 & [Ho1 Hl1 _ _]).
    destruct (IH st1 Hrest) as (l2 & Ho2 & Hl2 & _).
    exists (l1 ++ l2). rewrite Ho2, Ho1, app_assoc. split; [done|].
    rewrite length_app. split; [lia|].
    intros Hz. assert (l1 = [] ∧ l2 = []) as [-> ->].
    { split; apply nil_length_inv; lia. }
    by rewrite !app_nil_r.
Qed.

(** X7: once the poller has returned nothing is written any more:
    whatever is called afterwards, the output stays as it is and the
    items sent since only add to those pending. *)
Theorem nothing_written_after_stop (st st' : State) (cs : list call) :
  polling st = false →
  run st cs = Done st' →
  output st' = output st ∧ polling st' = false ∧
  pending st' = (pending st + submissions st cs)%nat.
Proof.
  revert st. induction cs as [|c cs IH]; intros st Hp; simpl.
  - intros [= <-]. repeat split; try done; lia.
  - destruct (exec st c) as [st1|] eqn:Hc; [|done].
    rewrite bind_Done. intros Hrest.
    destruct (exec_written st st1 c Hc) as (l1 & [Ho1 _ Hs1 Hpe1]).
    destruct (Hs1 Hp) as [-> Hp1]. rewrite app_nil_r in Ho1.
    destruct (IH st1 Hp1 Hrest) as (Ho2 & Hp2 & Hpe2).
    rewrite Ho2, Ho1, Hpe2. repeat split; try done. simpl in Hpe1.
    lia.
Qed.

(** X8: no item is lost and none is written twice: over any run that
    ends without a panic, the lines written and the items still pending
    are together as many as before, plus the log calls the loggers
    accepted. *)
Theorem items_conserved (st st' : State) (cs : list call) :
  run st cs = Done st' →
  (length (output st') + pending st'
   = length (output st) + pending st + submissions st cs)%nat.
Proof.
  revert st. induction cs as [|c cs IH]; intros st; simpl.
  - intros [= <-]. lia.
  - destruct (exec st c) as [st1|] eqn:Hc; [|done].
    rewrite bind_Done. intros Hrest.
    destruct (exec_written st st1 c Hc) as (l1 & [Ho1 _ _ Hpe1]).
    specialize (IH st1 Hrest). rewrite Ho1, length_app in IH. lia.
Qed.


Lemma run_counts_nonneg (cs : list call) (st0 st : State) :
  (∀ l lg, heap st0 !! l = Some lg → (0 ≤ count lg)%Z) →
  run st0 cs = Done st →
  ∀ l lg, heap st !! l = Some lg → (0 ≤ count lg)%Z.
Proof.
  revert st0. induction cs as [|c cs IH]; intros st0 Hinv; simpl.
  - by intros [= <-].
  - destruct (exec st0 c) as [st1|] eqn:Hc; [|done].
    rewrite bind_Done. intros Hrest. apply (IH st1); [|done].
    intros l lg Hl.
    pose proof (exec_counts st0 st1 c Hc l) as Hstep.
    destruct (heap st0 !! l) as [lg0|] eqn:Hl0.
    + destruct Hstep as (lg1 & Hl1 & Hc1). rewrite Hl in Hl1.
      injection Hl1 as <-. specialize (Hinv l lg0 Hl0). lia.
    + by rewrite (Hstep lg Hl).
Qed.

End Written.

Lemma writtenPadding_frame (st st' : State) (q : queueItem) :
  categoryPadding st' = categoryPadding st →
  maxCategorySize st' = maxCategorySize st →
  writtenPadding st' q = writtenPadding st q.
Proof. unfold writtenPadding. by intros -> ->. Qed.

Lemma poll_head (st : State) (ch : channel) (q : queueItem)
    (rest : list queueItem) (k : sink) :
  polling st = true → ch ≠ ExitCh → waiting st ch = q :: rest →
  writer q = Some k → paddingFits st q →
  ∃ st1,
    poll st ch = Some (Done st1) ∧
    waiting st1 ch = rest ∧ waiting st1 (other ch) = waiting st (other ch) ∧
    polling st1 = true ∧
    categoryPadding st1 = categoryPadding st ∧
    maxCategorySize st1 = maxCategorySize st ∧
    output st1 =
      output st ++ [(k, writtenCategory st q +:+ writtenPadding st q
                          +:+ message q +:+ nl)].
Proof.
  intros Hp Hch Hw Hk Hfit. unfold poll. rewrite Hp.
  destruct ch; [| |done]; simpl in Hw; rewrite Hw.
  - eexists. split.
    + f_equal. apply (performWrite_Done _ q k Hk).
      by apply (paddingFits_frame st).
    + done.
  - eexists. split.
    + f_equal. apply (performWrite_Done _ q k Hk).
      by apply (paddingFits_frame st).
    + done.
Qed.

Section Fifo.
Context `{GoStd}.

(** X10: the poller takes a channel's items oldest first: receiving
    from one channel as many times as it holds items writes one line
    for each item, in the order the items were sent, each to the writer
    the item carries, and leaves the other channel as it was. *)
Theorem poller_is_fifo (st : State) (ch : channel) (items : list queueItem) :
  polling st = true → ch ≠ ExitCh → waiting st ch = items →
  Forall (λ q, is_Some (writer q) ∧ paddingFits st q) items →
  ∃ st' lines,
    run st (replicate (length items) (Poll ch)) = Done st' ∧
    waiting st' ch = [] ∧
    waiting st' (other ch) = waiting st (other ch) ∧
    output st' = output st ++ lines ∧
    Forall2 (λ q line,
               writer q = Some line.1 ∧
               ∃ label,
                 String.length label
                 = String.length (Category.Compose (category q)) ∧
                 line.2 = label +:+ writtenPadding st q +:+ message q +:+ nl)
      items lines.
Proof.
  intros Hp Hch. revert st Hp.
  induction items as [|q rest IH]; intros st Hp Hw Hall.
  - exists st, []. simpl. rewrite app_nil_r. repeat split; try done.
  - apply Forall_cons in Hall as [[[k Hk] Hfit] Hall].
    destruct (poll_head st ch q rest k Hp Hch Hw Hk Hfit)
      as (st1 & Hpoll & Hw1 & Ho1 & Hp1 & Hcp & Hms & Hout).
    destruct (IH st1 Hp1 Hw1) as (st' & lines & Hrun & Hw' & Ho' & Hout' & Hf).
    { eapply Forall_impl; [exact Hall|]. intros q' [Hq' Hfit'].
      split; [done|]. by apply (paddingFits_frame st). }
    exists st', ((k, writtenCategory st q +:+ writtenPadding st q
                       +:+ message q +:+ nl) :: lines).
    split; [|split; [done|split; [by rewrite Ho'|split]]].
    + cbn [length replicate run exec]. by rewrite Hpoll, bind_Done.
    + rewrite Hout', Hout, <-app_assoc. done.
    + constructor.
      * split; [done|]. exists (writtenCategory st q).
        split; [apply writtenCategory_length | done].
      * eapply Forall2_impl; [exact Hf|]. intros q' line [Hq' (label & Hl & ->)].
        split; [done|]. exists label. split; [done|].
        by rewrite (writtenPadding_frame st st1).
Qed.

End Fifo.

(** ** Registrations *)

Lemma length_remove_dups_le {A} `{EqDecision A} (l : list A) :
  (length (remove_dups l) ≤ length l)%nat.
Proof.
  induction l as [|x l IH]; simpl; [done|].
  destruct (decide_rel elem_of x l); simpl; lia.
Qed.

Lemma remove_dups_NoDup {A} `{EqDecision A} (l : list A) :
  NoDup l → remove_dups l = l.
Proof.
  induction 1 as [|x l Hx Hnd IH]; simpl; [done|].
  destruct (decide_rel elem_of x l); [done | by rewrite IH].
Qed.

Lemma registered_size (st : State) (evs : list loc) :
  registry_inv st evs → size (loggers st) = length (remove_dups evs).
Proof.
  intros [_ Hl _].
  assert (loggers st = list_to_set (remove_dups evs)) as ->.
  { apply set_eq. intros p. rewrite elem_of_list_to_set, elem_of_remove_dups.
    apply Hl. }
  apply size_list_to_set, NoDup_remove_dups.
Qed.

Lemma registered_allocated (st : State) (evs : list loc) (p : loc) :
  registry_inv st evs → p ∈ loggers st → is_Some (heap st !! p).
Proof. intros [_ _ Hi] Hp. destruct (Hi p Hp) as (lg & Hlg & _). by exists lg. Qed.

Section Counting.
Context `{GoStd}.

(** X11: the package-level [Count] is the number of distinct loggers
    registered so far, not of registrations: it never exceeds the
    number of identities handed out, and equals it exactly when no
    logger was registered twice. *)
Theorem Count_distinct (cs : list call) (st : State) :
  run declared cs = Done st →
  let evs := registrations declared cs in
  Count st = Z.of_nat (length (remove_dups evs)) ∧
  (Count st ≤ highestLoggerID st + 1)%Z ∧
  (Count st = highestLoggerID st + 1 ↔ NoDup evs)%Z.
Proof.
  intros Hrun evs.
  pose proof (run_inv cs declared st [] declared_inv Hrun) as Hinv.
  simpl in Hinv. fold evs in Hinv.
  pose proof (registered_size st evs Hinv) as Hsize.
  destruct Hinv as [Hh _ _]. unfold Count. rewrite Hsize, Hh.
  pose proof (length_remove_dups_le evs) as Hle.
  split; [done|]. split; [lia|]. split.
  - intros Heq. assert (Hlen : length (remove_dups evs) = length evs) by lia.
    clear -Hlen. induction evs as [|x l IH]; [constructor|].
    simpl in Hlen. destruct (decide_rel elem_of x l) as [Hin | Hnin].
    + pose proof (length_remove_dups_le l). simpl in Hlen. lia.
    + simpl in Hlen. constructor; [done|]. apply IH. lia.
  - intros Hnd. rewrite (remove_dups_NoDup evs Hnd). lia.
Qed.

(** X12: [NewLogger] takes an address that was not in use and gives it
    the next identity; every logger there was is left as it was, the
    queues and the output too, and [Count] grows by one. *)
Theorem NewLogger_is_new (st : State) (handle : option sink)
    (category : string) (enabled : bool) :
  reachable st →
  let st' := (NewLogger st handle category enabled).1 in
  let p := (NewLogger st handle category enabled).2 in
  heap st !! p = None ∧ (p ∉ loggers st) ∧
  loggers st' = {[p]} ∪ loggers st ∧
  (∃ lg, heap st' !! p = Some lg ∧ id lg = (highestLoggerID st + 1)%Z ∧
         count lg = 0%Z ∧ Writer lg = handle ∧ Enabled lg = enabled) ∧
  (∀ q, q ≠ p → heap st' !! q = heap st !! q) ∧
  highestLoggerID st' = (highestLoggerID st + 1)%Z ∧
  Count st' = (Count st + 1)%Z ∧
  output st' = output st ∧ logQueue st' = logQueue st ∧
  logQueueBuffer st' = logQueueBuffer st.
Proof.
  intros [evs Hinv]%reachable_inv st' p.
  assert (Hnone : heap st !! p = None) by exact (fresh_unallocated st).
  assert (Hnin : p ∉ loggers st).
  { intros Hp. destruct (registered_allocated st evs p Hinv Hp) as [lg Hlg].
    congruence. }
  split; [done|]. split; [done|]. split; [done|]. split.
  { eexists. split; [apply NewLogger_lookup | done]. }
  split.
  { intros q Hq. unfold st', NewLogger. simpl. by rewrite lookup_insert_ne. }
  split; [done|]. split; [|done].
  unfold Count. change (loggers st') with ({[p]} ∪ loggers st).
  rewrite size_union by (apply disjoint_singleton_l; done).
  rewrite size_singleton. lia.
Qed.

End Counting.

(** ** AddLogger *)

Lemma AddLogger_cons (st : State) (p : loc) (ps : list loc) (lg : Logger) :
  heap st !! p = Some lg →
  AddLogger st (p :: ps)
  = AddLogger (registered_at st p
                 (Logger_with_id (highestLoggerID st + 1) lg)) ps.
Proof.
  intros Hlg. cbn [AddLogger]. unfold AddLogger_step. simpl. by rewrite Hlg.
Qed.

(** X13: [AddLogger] on loggers that are all in memory registers each
    of them and numbers them in the order given, from the next
    identity on; nothing but the identity of a logger given is
    changed.  With no logger given it does nothing. *)
Theorem AddLogger_numbers (st : State) (newLoggers : list loc) :
  Forall (λ p, is_Some (heap st !! p)) newLoggers →
  ∃ st',
    AddLogger st newLoggers = Done st' ∧
    highestLoggerID st'
    = (highestLoggerID st + Z.of_nat (length newLoggers))%Z ∧
    loggers st' = list_to_set newLoggers ∪ loggers st ∧
    (∀ q, q ∉ newLoggers → heap st' !! q = heap st !! q) ∧
    (NoDup newLoggers →
     ∀ k p, newLoggers !! k = Some p →
       ∃ lg, heap st !! p = Some lg ∧
             heap st' !! p
             = Some (Logger_with_id (highestLoggerID st + 1 + Z.of_nat k) lg)) ∧
    (newLoggers = [] → st' = st).
Proof.
  revert st. induction newLoggers as [|p ps IH]; intros st Hall.
  - exists st. split; [done|]. split; [simpl; lia|].
    split; [by rewrite list_to_set_nil, union_empty_l_L|].
    split; [done|]. split; [|done]. intros _ k p Hk. by rewrite lookup_nil in Hk.
  - apply Forall_cons in Hall as [[lg Hlg] Hall].
    set (st1 := registered_at st p
                  (Logger_with_id (highestLoggerID st + 1) lg)).
    assert (Hh1 : heap st1 = <[p := Logger_with_id (highestLoggerID st + 1) lg]>
                               (heap st)) by done.
    destruct (IH st1) as (st' & Hrun & Hhi & Hlo & Hfr & Hnum & _).
    { eapply Forall_impl; [exact Hall|]. intros q [lq Hq]. rewrite Hh1.
      destruct (decide (p = q)) as [<- | Hne];
        [by rewrite lookup_insert_eq | by rewrite lookup_insert_ne]. }
    exists st'. split; [by rewrite (AddLogger_cons st p ps lg Hlg)|].
    split.
    { rewrite Hhi. change (highestLoggerID st1) with (highestLoggerID st + 1)%Z.
      simpl. lia. }
    split.
    { rewrite Hlo. change (loggers st1) with ({[p]} ∪ loggers st).
      rewrite list_to_set_cons. apply set_eq. intros x.
      rewrite !elem_of_union. tauto. }
    split.
    { intros q Hq. apply not_elem_of_cons in Hq as [Hqp Hq].
      rewrite (Hfr q Hq), Hh1. by rewrite lookup_insert_ne. }
    split; [|done].
    intros [Hp Hnd]%NoDup_cons k q Hk. destruct k as [|k]; simpl in Hk.
    + injection Hk as <-. exists lg. split; [done|].
      rewrite (Hfr p Hp), Hh1, lookup_insert_eq. do 2 f_equal. lia.
    + destruct (Hnum Hnd k q Hk) as (lq & Hlq & Hlq').
      assert (Hne : p ≠ q).
      { intros ->. apply Hp. by apply list_elem_of_lookup_2 with k. }
      rewrite Hh1, lookup_insert_ne in Hlq by done.
      exists lq. split; [done|]. rewrite Hlq'.
      change (highestLoggerID st1) with (highestLoggerID st + 1)%Z.
      do 2 f_equal. lia.
Qed.

(** X14: [AddLogger] panics on a nil pointer: if one of the loggers
    given is not in memory the call does not return, whatever the
    others are, and no logger is registered by it. *)
Theorem AddLogger_nil (st : State) (newLoggers : list loc) :
  Exists (λ p, heap st !! p = None) newLoggers →
  AddLogger st newLoggers = Panicked NilDereference.
Proof.
  revert st. induction newLoggers as [|p ps IH]; intros st Hex.
  - by apply Exists_nil in Hex.
  - destruct (heap st !! p) as [lg|] eqn:Hlg.
    + rewrite (AddLogger_cons st p ps lg Hlg). apply IH.
      apply Exists_cons in Hex as [Hp | Hex]; [congruence|].
      eapply Exists_impl; [exact Hex|]. intros q Hq. simpl.
      destruct (decide (p = q)) as [<- | Hne]; [congruence|].
      by rewrite lookup_insert_ne.
    + cbn [AddLogger]. unfold AddLogger_step. simpl. by rewrite Hlg.
Qed.

(** ** Instances of the further properties *)

Lemma backlog_run : run declared backlogProgram = Done backlog.
Proof. vm_compute. reflexivity. Qed.

Lemma stopped_run : run declared stoppedProgram = Done stopped.
Proof. vm_compute. reflexivity. Qed.

Lemma literalState_run : run declared literalProgram = Done literalState.
Proof. vm_compute. reflexivity. Qed.

Lemma SetCategoryPadding_restores_witness :
  let st1 := SetCategoryPadding literalState true in
  ∃ st',
    performWrite st1 errorItem = Done st' ∧
    output st' =
      output literalState ++
        [(os_Stderr, writtenCategory st1 errorItem
                       +:+ writtenPadding st1 errorItem
                       +:+ message errorItem +:+ nl)] ∧
    len (writtenCategory st1 errorItem +:+ writtenPadding st1 errorItem)
    = (maxCategorySize st1 + 1)%Z.
Proof.
  apply (SetCategoryPadding_restores literalState 1%positive internalLogger
           errorItem os_Stderr).
  - vm_compute. reflexivity.
  - vm_compute. reflexivity.
  - reflexivity.
  - reflexivity.
Defined.

Lemma performWrite_twice_witness :
  ∃ st2,
    performWrite
      (with_written
         (output initial ++
            [(os_Stderr, writtenCategory initial errorItem
                           +:+ writtenPadding initial errorItem
                           +:+ message errorItem +:+ nl)])
         (Category.Name (category errorItem)) initial) errorItem = Done st2 ∧
    output st2 =
      output
        (with_written
           (output initial ++
              [(os_Stderr, writtenCategory initial errorItem
                             +:+ writtenPadding initial errorItem
                             +:+ message errorItem +:+ nl)])
           (Category.Name (category errorItem)) initial) ++
        [(os_Stderr,
          (if categoryGrouping initial
              && String.eqb (Category.Name (category errorItem))
                   (Category.Name (category errorItem))
           then repeat_string " "
                  (String.length (Category.Compose (category errorItem)))
           else Category.Compose (category errorItem))
            +:+ writtenPadding initial errorItem +:+ message errorItem
            +:+ nl)] ∧
    previousCategory st2 = Category.Name (category errorItem).
Proof.
  apply (performWrite_twice initial _ errorItem errorItem os_Stderr).
  - apply (performWrite_Done initial errorItem os_Stderr); [reflexivity|].
    intros _. vm_compute. discriminate.
  - reflexivity.
  - intros _. vm_compute. discriminate.
Defined.

Lemma output_grows_by_polls_witness :
  ∃ lines, output stopped = output declared ++ lines ∧
           (length lines ≤ polls stoppedProgram)%nat ∧
           (polls stoppedProgram = 0%nat → output stopped = output declared).
Proof.
  apply (@output_grows_by_polls reference declared stopped stoppedProgram).
  vm_compute. reflexivity.
Defined.

Lemma nothing_written_after_stop_witness :
  let st' := match run stopped afterStop with
             | Done st => st
             | Panicked _ => stopped
             end in
  output st' = output stopped ∧ polling st' = false ∧
  pending st' = (pending stopped + submissions stopped afterStop)%nat.
Proof.
  apply (@nothing_written_after_stop reference stopped _ afterStop).
  - vm_compute. reflexivity.
  - vm_compute. reflexivity.
Defined.

Lemma items_conserved_witness :
  (length (output stopped) + pending stopped
   = length (output declared) + pending declared
     + submissions declared stoppedProgram)%nat.
Proof.
  apply (@items_conserved reference declared stopped stoppedProgram).
  vm_compute. reflexivity.
Defined.


Lemma poller_is_fifo_witness :
  ∃ st' lines,
    @run reference backlog (replicate (length backlogItems) (Poll LogQueue))
    = Done st' ∧
    waiting st' LogQueue = [] ∧
    waiting st' (other LogQueue) = waiting backlog (other LogQueue) ∧
    output st' = output backlog ++ lines ∧
    Forall2 (λ q line,
               writer q = Some line.1 ∧
               ∃ label,
                 String.length label
                 = String.length (Category.Compose (category q)) ∧
                 line.2 = label +:+ writtenPadding backlog q +:+ message q
                            +:+ nl)
      backlogItems lines.
Proof.
  apply (@poller_is_fifo reference backlog LogQueue backlogItems).
  - vm_compute. reflexivity.
  - discriminate.
  - vm_compute. reflexivity.
  - repeat constructor; try (by eexists); intros _; vm_compute; discriminate.
Defined.

Lemma Count_distinct_witness :
  let evs := registrations declared registeredTwice in
  let st := match run declared registeredTwice with
            | Done st => st
            | Panicked _ => declared
            end in
  Count st = Z.of_nat (length (remove_dups evs)) ∧
  (Count st ≤ highestLoggerID st + 1)%Z ∧
  (Count st = highestLoggerID st + 1 ↔ NoDup evs)%Z.
Proof.
  apply (@Count_distinct reference registeredTwice). vm_compute. reflexivity.
Defined.

Lemma NewLogger_is_new_witness :
  let st' := (NewLogger initial None "FILE" true).1 in
  let p := (NewLogger initial None "FILE" true).2 in
  heap initial !! p = None ∧ (p ∉ loggers initial) ∧
  loggers st' = {[p]} ∪ loggers initial ∧
  (∃ lg, heap st' !! p = Some lg ∧ id lg = (highestLoggerID initial + 1)%Z ∧
         count lg = 0%Z ∧ Writer lg = None ∧ Enabled lg = true) ∧
  (∀ q, q ≠ p → heap st' !! q = heap initial !! q) ∧
  highestLoggerID st' = (highestLoggerID initial + 1)%Z ∧
  Count st' = (Count initial + 1)%Z ∧
  output st' = output initial ∧ logQueue st' = logQueue initial ∧
  logQueueBuffer st' = logQueueBuffer initial.
Proof.
  apply (@NewLogger_is_new reference initial None "FILE" true).
  exists [CallNewLogger (Some os_Stdout) "LOG" true]. reflexivity.
Defined.

Lemma AddLogger_numbers_witness :
  ∃ st',
    AddLogger literalState [2%positive] = Done st' ∧
    highestLoggerID st'
    = (highestLoggerID literalState + Z.of_nat (length [2%positive]))%Z ∧
    loggers st' = list_to_set [2%positive] ∪ loggers literalState ∧
    (∀ q, q ∉ [2%positive] → heap st' !! q = heap literalState !! q) ∧
    (NoDup [2%positive] →
     ∀ k p, [2%positive] !! k = Some p →
       ∃ lg, heap literalState !! p = Some lg ∧
             heap st' !! p
             = Some (Logger_with_id
                       (highestLoggerID literalState + 1 + Z.of_nat k) lg)) ∧
    ([2%positive] = [] → st' = literalState).
Proof.
  apply (AddLogger_numbers literalState [2%positive]).
  repeat constructor. vm_compute. by eexists.
Defined.

Lemma AddLogger_nil_witness :
  AddLogger initial [1%positive; 7%positive] = Panicked NilDereference.
Proof.
  apply (AddLogger_nil initial [1%positive; 7%positive]).
  apply Exists_cons_tl, Exists_cons_hd. vm_compute. reflexivity.
Defined.

(** ** The earlier package: prefixes *)

Section WrapperProperties.
Import Wrapper.
Context `{GoLog}.

Lemma strip_right_spaces (n : nat) : strip_right (repeat_string " " n) = "".
Proof.
  induction n as [|n IH]; [done|].
  change (repeat_string " " (S n)) with (String " " (repeat_string " " n)).
  cbn [strip_right]. by rewrite IH.
Qed.

Lemma strip_right_core (x : string) (c : ascii) (n : nat) :
  asciiSpace c = false →
  strip_right (x +:+ String c (repeat_string " " n)) = x +:+ String c "".
Proof.
  intros Hc. induction x as [|a x IH].
  - change ("" +:+ String c (repeat_string " " n))
      with (String c (repeat_string " " n)).
    cbn [strip_right]. by rewrite strip_right_spaces, Hc.
  - rewrite !append_cons. cbn [strip_right]. rewrite IH.
    by destruct x.
Qed.

Lemma last_byte_core (x : string) (c : ascii) :
  last_byte (x +:+ String c "") = Some c.
Proof.
  induction x as [|a x IH]; [done|].
  rewrite append_cons. cbn [last_byte]. rewrite IH. by destruct x.
Qed.

Lemma TrimSpace_spaces (n : nat) :
  strings_TrimSpace (repeat_string " " n) = "".
Proof.
  induction n as [|n IH]; [done|].
  change (repeat_string " " (S n)) with (String " " (repeat_string " " n)).
  cbn [strings_TrimSpace].
  change (outside_ascii " ") with false. change (asciiSpace " ") with true.
  done.
Qed.

Lemma trim_end_core (x : string) (c : ascii) (n : nat) :
  asciiSpace c = false → outside_ascii c = false →
  trim_end (x +:+ String c (repeat_string " " n)) = x +:+ String c "".
Proof.
  intros Hc Ho. unfold trim_end. rewrite strip_right_core by done.
  cbv zeta. by rewrite last_byte_core, Ho.
Qed.

Lemma TrimSpace_shaped (core : string) (n : nat) :
  bracketed core →
  strings_TrimSpace (core +:+ repeat_string " " n) = core.
Proof.
  intros [-> | [name ->]]; [apply TrimSpace_spaces|].
  rewrite !append_assoc.
  change ("[" +:+ name +:+ "]" +:+ repeat_string " " n)
    with (String "[" (name +:+ String "]" (repeat_string " " n))).
  cbn [strings_TrimSpace].
  change (outside_ascii "[") with false. change (asciiSpace "[") with false.
  cbv iota.
  change (String "[" (name +:+ String "]" (repeat_string " " n)))
    with (String "[" name +:+ String "]" (repeat_string " " n)).
  by rewrite trim_end_core.
Qed.

Lemma padded_shape (enabled : bool) (max : Z) (core : string) :
  ∃ n, padded enabled max core = core +:+ repeat_string " " n.
Proof.
  unfold padded. destruct enabled; [by eexists|].
  destruct (String.eqb_spec core "") as [-> | _].
  - by exists 0%nat.
  - by exists 1%nat.
Qed.

Lemma TrimSpace_padded (enabled : bool) (max : Z) (core : string) :
  bracketed core → strings_TrimSpace (padded enabled max core) = core.
Proof.
  intros Hcore. destruct (padded_shape enabled max core) as [n ->].
  by apply TrimSpace_shaped.
Qed.

Lemma len_unpadded (core : string) (max : Z) :
  (len core ≤ len (padded false max core))%Z.
Proof.
  unfold padded. destruct (String.eqb_spec core "") as [-> | _]; [done|].
  rewrite len_append. pose proof (len_nonneg " "). lia.
Qed.

Lemma len_padded (max : Z) (core : string) :
  (len core ≤ max)%Z → len (padded true max core) = max.
Proof.
  intros Hle. unfold padded. rewrite len_append, len_spaces.
  pose proof (len_nonneg core). lia.
Qed.

Lemma repad_shaped (enabled : bool) (max : Z) (l : Logger)
    (logs0 : gmap loc log_Logger) (ll : log_Logger) (core : string) (n : nat) :
  logs0 !! logger l = Some ll →
  prefix ll = core +:+ repeat_string " " n →
  bracketed core →
  (len (padded false 0 core) ≤ max)%Z →
  repad enabled max l logs0
  = Done (<[logger l := log_with_prefix (padded enabled max core) ll]> logs0).
Proof.
  intros Hl Hp Hcore Hle. unfold repad. rewrite Hl. cbv zeta.
  rewrite Hp, TrimSpace_shaped by done.
  pose proof (len_unpadded core 0).
  destruct enabled.
  - rewrite Repeat_nonneg by lia. done.
  - rewrite bind_Done. unfold padded.
    by destruct (String.eqb_spec core "") as [-> | _].
Qed.

Lemma log_with_prefix_twice (p q : string) (ll : log_Logger) :
  log_with_prefix p (log_with_prefix q ll) = log_with_prefix p ll.
Proof. reflexivity. Qed.

Lemma log_with_prefix_same (ll : log_Logger) :
  log_with_prefix (prefix ll) ll = ll.
Proof. by destruct ll. Qed.

Lemma padding_loop_spec (enabled : bool) (max : Z) (ls : list Logger)
    (logs0 : gmap loc log_Logger) :
  (∀ l, l ∈ ls →
     ∃ ll core n, logs0 !! logger l = Some ll ∧
                  prefix ll = core +:+ repeat_string " " n ∧
                  bracketed core ∧ (len (padded false 0 core) ≤ max)%Z) →
  ∃ logs', padding_loop enabled max ls logs0 = Done logs' ∧
           ∀ a, logs' !! a = repadded enabled max ls logs0 a.
Proof.
  revert logs0. induction ls as [|l ls IH]; intros logs0 Hsh.
  - exists logs0. split; [done|]. intros a. unfold repadded.
    rewrite decide_False; [done|]. rewrite fmap_nil. by intros ?%elem_of_nil.
  - destruct (Hsh l) as (ll & core & n & Hl & Hp & Hcore & Hle); [by left|].
    cbn [padding_loop].
    rewrite (repad_shaped enabled max l logs0 ll core n) by done.
    rewrite bind_Done.
    destruct (IH (<[logger l := log_with_prefix (padded enabled max core) ll]>
                    logs0)) as (logs' & Hrun & Hlook).
    { intros l' Hl'. destruct (decide (logger l' = logger l)) as [e | ne].
      - destruct (padded_shape enabled max core) as [m Hm].
        exists (log_with_prefix (padded enabled max core) ll), core, m.
        rewrite e, lookup_insert_eq. done.
      - destruct (Hsh l') as (ll' & core' & n' & Hl1 & Hrest); [by right|].
        exists ll', core', n'. by rewrite lookup_insert_ne. }
    exists logs'. split; [done|]. intros a. rewrite Hlook. unfold repadded.
    rewrite fmap_cons. destruct (decide (a = logger l)) as [-> | ne].
    + rewrite (decide_True (P := logger l ∈ logger l :: (logger <$> ls)))
        by left.
      rewrite Hl, lookup_insert_eq. cbn [fmap option_fmap option_map].
      rewrite Hp, TrimSpace_shaped by done. case_decide; [|done].
      cbn [fmap option_fmap option_map].
      change (prefix (log_with_prefix (padded enabled max core) ll))
        with (padded enabled max core).
      by rewrite TrimSpace_padded, log_with_prefix_twice.
    + rewrite lookup_insert_ne by done.
      destruct (decide (a ∈ logger <$> ls)) as [Hin | Hout].
      * by rewrite decide_True by by right.
      * rewrite decide_False; [done|]. by intros [?|?]%elem_of_cons.
Qed.

Lemma elem_of_range (m : gmap loc Logger) (l : Logger) :
  l ∈ range m ↔ ∃ k, m !! k = Some l.
Proof.
  unfold range. rewrite list_elem_of_fmap. split.
  - intros ([k l'] & -> & Hin). exists k. by apply elem_of_map_to_list.
  - intros [k Hk]. exists (k, l). split; [done|]. by apply elem_of_map_to_list.
Qed.

Lemma aligned_shaped (st : State) : aligned st → shaped st.
Proof.
  intros Hal k l Hk. destruct (Hal k l Hk) as (ll & core & Hl & Hp & Hrest).
  destruct (padded_shape (prefixPaddingEnabled st) (prefixMaxPadding st) core)
    as [n Hn].
  exists ll, core, n. by rewrite Hp.
Qed.

Lemma SetPrefixPadding_shaped (st : State) (enabled : bool) :
  shaped st →
  ∃ logs',
    SetPrefixPadding st enabled
    = Done (mkState logs' (loggers st) enabled (prefixMaxPadding st)
              (output st)) ∧
    (∀ a, logs' !! a
          = repadded enabled (prefixMaxPadding st) (range (loggers st))
              (logs st) a) ∧
    aligned (mkState logs' (loggers st) enabled (prefixMaxPadding st)
               (output st)).
Proof.
  intros Hsh.
  destruct (padding_loop_spec enabled (prefixMaxPadding st)
              (range (loggers st)) (logs st)) as (logs' & Hrun & Hlook).
  { intros l [k Hk]%elem_of_range. by apply (Hsh k). }
  exists logs'. split; [|split; [done|]].
  - unfold SetPrefixPadding. by rewrite Hrun.
  - intros k l Hk. cbn in Hk |- *.
    destruct (Hsh k l Hk) as (ll & core & n & Hl & Hp & Hcore & Hle).
    exists (log_with_prefix (padded enabled (prefixMaxPadding st) core) ll),
      core.
    split; [|done]. rewrite Hlook. unfold repadded.
    rewrite decide_True.
    + by rewrite Hl; cbn; rewrite Hp, TrimSpace_shaped.
    + apply list_elem_of_fmap. exists l. split; [done|].
      apply elem_of_range. by exists k.
Qed.

(** The core of the prefix [NewLogger] makes of a name. *)
Lemma NewLogger_core (name : string) :
  let core := if String.eqb name "" then "" else "[" +:+ name +:+ "]" in
  bracketed core ∧
  (if negb (String.eqb name "") then "[" +:+ name +:+ "] " else name)
  = padded false 0 core.
Proof.
  cbv zeta. destruct (String.eqb_spec name "") as [-> | Hne].
  - split; [by left | done].
  - split; [right; by exists name|]. unfold padded.
    change (("[" +:+ name +:+ "]" =? "")%string) with false.
    cbn [negb]. cbv iota. by rewrite !append_cons, !append_assoc.
Qed.

Lemma NewLogger_aligned (st : State) (handle : option sink) (name : string)
    (enabled : bool) :
  aligned st →
  let core := if String.eqb name "" then "" else "[" +:+ name +:+ "]" in
  let l := mkLogger (fresh (dom (logs st))) enabled "" None in
  ∃ st',
    NewLogger st handle name enabled = Done (st', l) ∧
    aligned st' ∧
    loggers st' = <[fresh (dom (loggers st)) := l]> (loggers st) ∧
    prefixPaddingEnabled st' = prefixPaddingEnabled st ∧
    prefixMaxPadding st'
    = Z.max (prefixMaxPadding st) (len (padded false 0 core)) ∧
    output st' = output st ∧
    logs st' !! logger l
    = Some (mkLog (padded (prefixPaddingEnabled st') (prefixMaxPadding st')
                     core) log_Ldate_Ltime handle).
Proof.
  intros Hal core l.
  destruct (NewLogger_core name) as [Hcore Hprefix]. fold core in Hcore, Hprefix.
  unfold NewLogger. cbv zeta. rewrite Hprefix.
  set (max' := if decide (len (padded false 0 core) > prefixMaxPadding st)%Z
               then len (padded false 0 core) else prefixMaxPadding st).
  assert (max' = Z.max (prefixMaxPadding st) (len (padded false 0 core)))
    as Hmax by (unfold max'; case_decide; lia).
  fold l.
  set (st1 := mkState _ _ _ _ _).
  assert (logs st !! fresh (dom (logs st)) = None) as Hfresh
    by (apply not_elem_of_dom, is_fresh).
  destruct (SetPrefixPadding_shaped st1 (prefixPaddingEnabled st1))
    as (logs' & Hrun & Hlook & Hal').
  { intros k l' Hkl. unfold st1 in Hkl |- *. cbn -[padded] in Hkl |- *.
    apply lookup_insert_Some in Hkl as [[<- <-] | [Hk Hl']].
    - destruct (padded_shape false 0 core) as [n Hn].
      exists (mkLog (padded false 0 core) log_Ldate_Ltime handle), core, n.
      rewrite lookup_insert_eq. repeat split; [done.. |]. lia.
    - destruct (Hal k l' Hl') as (ll & core' & Hll & Hp & Hc & Hle).
      destruct (padded_shape (prefixPaddingEnabled st) (prefixMaxPadding st)
                  core') as [n Hn].
      exists ll, core', n. rewrite lookup_insert_ne by congruence.
      rewrite Hp. repeat split; [done.. |]. lia. }
  rewrite Hrun, bind_Done. eexists. split; [done|].
  split; [done|]. cbn -[padded]. repeat split; [done|].
  rewrite Hlook. unfold repadded. rewrite decide_True.
  - unfold st1. cbn [logs prefixPaddingEnabled prefixMaxPadding].
    rewrite lookup_insert_eq. cbn [fmap option_fmap option_map prefix].
    by rewrite TrimSpace_padded.
  - apply list_elem_of_fmap. exists l. split; [done|].
    apply elem_of_range. exists (fresh (dom (loggers st))).
    apply lookup_insert_eq.
Qed.

Lemma on_log_aligned (f : log_Logger → log_Logger) (st st' : State)
    (l : Logger) :
  (∀ ll, prefix (f ll) = prefix ll) →
  on_log f st l = Done st' → aligned st → aligned st'.
Proof.
  intros Hf Hrun Hal. unfold on_log in Hrun.
  destruct (logs st !! logger l) as [ll0|] eqn:Hl0; [|done].
  injection Hrun as <-. intros k l' Hk. cbn in Hk |- *.
  destruct (Hal k l' Hk) as (ll & core & Hll & Hp & Hrest).
  destruct (decide (logger l' = logger l)) as [e | ne].
  - exists (f ll), core. rewrite e, lookup_insert_eq.
    rewrite e, Hl0 in Hll. injection Hll as ->. by rewrite Hf.
  - exists ll, core. by rewrite lookup_insert_ne.
Qed.

Lemma performLog_frame (st st' : State) (l : Logger) (now : Time)
    (msg : string) (newline : bool) :
  performLog st l now msg newline = Done st' →
  logs st' = logs st ∧ loggers st' = loggers st ∧
  prefixPaddingEnabled st' = prefixPaddingEnabled st ∧
  prefixMaxPadding st' = prefixMaxPadding st.
Proof.
  unfold performLog, log_Print. destruct (Bool.eqb (enabled l) false).
  - by intros [= <-].
  - destruct (logs st !! logger l) as [ll|]; [|done].
    destruct (out ll); [|done]. by intros [= <-].
Qed.

Lemma performLog_aligned (st st' : State) (l : Logger) (now : Time)
    (msg : string) (newline : bool) :
  performLog st l now msg newline = Done st' → aligned st → aligned st'.
Proof.
  intros (Hlogs & Hloggers & Hflag & Hmax)%performLog_frame Hal k l' Hk.
  rewrite Hlogs, Hflag, Hmax. rewrite Hloggers in Hk. by apply (Hal k).
Qed.

Lemma exec_aligned (st st' : State) (c : call) :
  exec st c = Done st' → aligned st → aligned st'.
Proof.
  destruct c as [handle name enabled | enabled | l w | l flag | l now msg
                | l now format args | l now msg]; cbn [exec]; intros Hrun Hal.
  - destruct (NewLogger_aligned st handle name enabled Hal)
      as (st1 & Hnew & Hal1 & _).
    rewrite Hnew in Hrun. by injection Hrun as <-.
  - destruct (SetPrefixPadding_shaped st enabled (aligned_shaped st Hal))
      as (logs' & Hset & _ & Hal').
    rewrite Hset in Hrun. by injection Hrun as <-.
  - by apply (on_log_aligned (log_with_out w) st st' l).
  - by apply (on_log_aligned (log_with_flag flag) st st' l).
  - by apply (performLog_aligned st st' l now (fmt_Sprint msg) false).
  - by apply (performLog_aligned st st' l now (fmt_Sprintf format args) false).
  - by apply (performLog_aligned st st' l now (fmt_Sprint msg) true).
Qed.

Lemma run_aligned (cs : list call) (st st' : State) :
  run st cs = Done st' → aligned st → aligned st'.
Proof.
  revert st. induction cs as [|c cs IH]; intros st Hrun Hal.
  - by injection Hrun as <-.
  - cbn [run] in Hrun. destruct (exec st c) as [st1|e] eqn:Hc; [|done].
    apply (IH st1); [done|]. by apply (exec_aligned st st1 c).
Qed.

Lemma reachable_aligned (st : State) : reachable st → aligned st.
Proof.
  intros [cs Hrun]. apply (run_aligned cs declared st Hrun).
  intros k l Hk. cbn in Hk. by rewrite lookup_empty in Hk.
Qed.

Lemma SetPrefixPadding_same (st : State) :
  aligned st → SetPrefixPadding st (prefixPaddingEnabled st) = Done st.
Proof.
  intros Hal.
  destruct (SetPrefixPadding_shaped st (prefixPaddingEnabled st)
              (aligned_shaped st Hal)) as (logs' & Hrun & Hlook & _).
  rewrite Hrun. f_equal.
  assert (logs' = logs st) as ->; [|by destruct st].
  apply map_eq. intros a. rewrite Hlook. unfold repadded.
  case_decide as Hin; [|done].
  apply list_elem_of_fmap in Hin as (l & -> & [k Hk]%elem_of_range).
  destruct (Hal k l Hk) as (ll & core & Hl & Hp & Hcore & _).
  rewrite Hl. cbn [fmap option_fmap option_map]. f_equal.
  rewrite Hp, TrimSpace_padded by done. rewrite <- Hp.
  apply log_with_prefix_same.
Qed.

Lemma SetPrefixPadding_twice (st : State) (first second : bool) :
  aligned st →
  ∃ st1, SetPrefixPadding st first = Done st1 ∧ aligned st1 ∧
         SetPrefixPadding st1 second = SetPrefixPadding st second.
Proof.
  intros Hal. pose proof (aligned_shaped st Hal) as Hsh.
  destruct (SetPrefixPadding_shaped st first Hsh)
    as (logs1 & Hrun1 & Hlook1 & Hal1).
  destruct (SetPrefixPadding_shaped _ second (aligned_shaped _ Hal1))
    as (logs2 & Hrun2 & Hlook2 & _).
  destruct (SetPrefixPadding_shaped st second Hsh)
    as (logs3 & Hrun3 & Hlook3 & _).
  eexists. split; [done|]. split; [done|]. rewrite Hrun2, Hrun3.
  cbn [logs loggers prefixMaxPadding output] in Hlook2 |- *.
  assert (logs2 = logs3) as ->; [|done].
  apply map_eq. intros a. rewrite Hlook2, Hlook3. unfold repadded.
  rewrite Hlook1. unfold repadded.
  case_decide as Hin; [|done].
  apply list_elem_of_fmap in Hin as (l & -> & [k Hk]%elem_of_range).
  destruct (Hal k l Hk) as (ll & core & Hl & Hp & Hcore & _).
  rewrite Hl. cbn [fmap option_fmap option_map]. f_equal.
  change (prefix (log_with_prefix ?p ll)) with p.
  rewrite Hp. rewrite (TrimSpace_padded (prefixPaddingEnabled st)) by done.
  rewrite TrimSpace_padded by done. apply log_with_prefix_twice.
Qed.

Lemma ends_with_newline_nl (x : string) : ends_with_newline (x +:+ nl) = true.
Proof.
  induction x as [|a x IH]; [done|].
  rewrite append_cons. cbn [ends_with_newline]. rewrite IH. by destruct x.
Qed.

Lemma append_empty (x : string) : x +:+ "" = x.
Proof. induction x as [|a x IH]; [done|]. rewrite append_cons. by f_equal. Qed.

Lemma run_app (cs1 cs2 : list call) (st st1 : State) :
  run st cs1 = Done st1 → run st (cs1 ++ cs2) = run st1 cs2.
Proof.
  revert st. induction cs1 as [|c cs1 IH]; intros st Hrun.
  - by injection Hrun as ->.
  - cbn [run app] in Hrun |- *. destruct (exec st c) as [st'|e]; [|done].
    by apply IH.
Qed.

(** X15: in every state the calls of the earlier package reach, the
    prefix of each registered logger is nothing or a name in square
    brackets, followed by spaces only: at least one after a name; as
    many as bring the prefix to [prefixMaxPadding] bytes while padding is
    on, and none but that one while it is off. *)
Theorem prefixes_stay_aligned (st : State) (k : loc) (l : Logger) :
  reachable st →
  loggers st !! k = Some l →
  ∃ ll core n,
    logs st !! logger l = Some ll ∧
    prefix ll = core +:+ repeat_string " " n ∧
    bracketed core ∧
    (core ≠ "" → (1 ≤ n)%nat) ∧
    (if prefixPaddingEnabled st
     then len (prefix ll) = prefixMaxPadding st
     else n = if String.eqb core "" then 0%nat else 1%nat).
Proof.
  intros Hreach Hk.
  destruct (reachable_aligned st Hreach k l Hk)
    as (ll & core & Hl & Hp & Hcore & Hle).
  pose proof (len_unpadded core 0) as Hlen.
  assert (core ≠ "" → len (padded false 0 core) = len core + 1)%Z as Hroom.
  { intros Hne. unfold padded.
    destruct (String.eqb_spec core "") as [-> | _]; [done|].
    by rewrite len_append. }
  destruct (prefixPaddingEnabled st) eqn:Hflag.
  - exists ll, core, (Z.to_nat (prefixMaxPadding st - len core)).
    split; [done|]. split; [done|]. split; [done|]. split.
    + intros Hne. specialize (Hroom Hne). lia.
    + rewrite Hp. apply len_padded. lia.
  - exists ll, core, (if String.eqb core "" then 0%nat else 1%nat).
    split; [done|]. split.
    + rewrite Hp. unfold padded.
      destruct (String.eqb_spec core "") as [-> | _]; [done|done].
    + split; [done|]. split; [|done]. intros Hne.
      by destruct (String.eqb_spec core "").
Qed.

(** X16: [SetPrefixPadding] completes in every reachable state, and of
    two calls in a row the second decides: the state is the one the
    second call alone gives. *)
Theorem SetPrefixPadding_last_wins (st : State) (first second : bool) :
  reachable st →
  ∃ st1, SetPrefixPadding st first = Done st1 ∧
         SetPrefixPadding st1 second = SetPrefixPadding st second.
Proof.
  intros Hreach.
  destruct (SetPrefixPadding_twice st first second (reachable_aligned st Hreach))
    as (st1 & Hrun & _ & Hsame).
  by exists st1.
Qed.

(** X17: switching the padding to the other setting and back restores a
    reachable state: every prefix, and the rest of the state, is as it
    was. *)
Theorem SetPrefixPadding_round_trip (st : State) :
  reachable st →
  ∃ st1, SetPrefixPadding st (negb (prefixPaddingEnabled st)) = Done st1 ∧
         SetPrefixPadding st1 (prefixPaddingEnabled st) = Done st.
Proof.
  intros Hreach. pose proof (reachable_aligned st Hreach) as Hal.
  destruct (SetPrefixPadding_twice st (negb (prefixPaddingEnabled st))
              (prefixPaddingEnabled st) Hal) as (st1 & Hrun & _ & Hsame).
  exists st1. split; [done|]. rewrite Hsame. by apply SetPrefixPadding_same.
Qed.

(** X18: the order in which the loop of [SetPrefixPadding] meets the
    registered loggers does not matter: over any arrangement of them it
    ends with the same prefixes. *)
Theorem padding_order_irrelevant (st : State) (enabled : bool)
    (order : list Logger) :
  reachable st →
  order ≡ₚ range (loggers st) →
  padding_loop enabled (prefixMaxPadding st) order (logs st)
  = padding_loop enabled (prefixMaxPadding st) (range (loggers st)) (logs st).
Proof.
  intros Hreach Hperm.
  pose proof (aligned_shaped st (reachable_aligned st Hreach)) as Hsh.
  destruct (padding_loop_spec enabled (prefixMaxPadding st) order (logs st))
    as (logs1 & Hrun1 & Hlook1).
  { intros l Hl. rewrite Hperm in Hl. apply elem_of_range in Hl as [k Hk].
    by apply (Hsh k). }
  destruct (padding_loop_spec enabled (prefixMaxPadding st)
              (range (loggers st)) (logs st)) as (logs2 & Hrun2 & Hlook2).
  { intros l [k Hk]%elem_of_range. by apply (Hsh k). }
  rewrite Hrun1, Hrun2. f_equal. apply map_eq. intros a.
  rewrite Hlook1, Hlook2. unfold repadded.
  destruct (decide (a ∈ logger <$> order)) as [Hin | Hout].
  - rewrite decide_True; [done|]. by rewrite <- Hperm.
  - rewrite decide_False; [done|]. by rewrite <- Hperm.
Qed.

(** X19: in every reachable state [NewLogger] completes.  The logger it
    returns has a [log.Logger] of its own with the flags
    [Ldate|Ltime], the writer given, and the prefix ["[name]"] (nothing
    for the empty name) padded as the current setting asks;
    [prefixMaxPadding] has grown to the length of ["[name] "] if that is
    longer; the state is reachable again. *)
Theorem NewLogger_prefix (st : State) (handle : option sink) (name : string)
    (enabled : bool) :
  reachable st →
  let core := if String.eqb name "" then "" else "[" +:+ name +:+ "]" in
  ∃ st' l,
    NewLogger st handle name enabled = Done (st', l) ∧
    l = mkLogger (logger l) enabled "" None ∧
    logs st !! logger l = None ∧
    (∃ k, loggers st !! k = None ∧ loggers st' = <[k := l]> (loggers st)) ∧
    prefixPaddingEnabled st' = prefixPaddingEnabled st ∧
    prefixMaxPadding st'
    = Z.max (prefixMaxPadding st) (if String.eqb name "" then 0 else len name + 3) ∧
    logs st' !! logger l
    = Some (mkLog (padded (prefixPaddingEnabled st) (prefixMaxPadding st') core)
              log_Ldate_Ltime handle) ∧
    output st' = output st ∧
    reachable st'.
Proof.
  intros Hreach core.
  destruct (NewLogger_aligned st handle name enabled
              (reachable_aligned st Hreach))
    as (st' & Hnew & _ & Hloggers & Hflag & Hmax & Hout & Hl).
  fold core in Hmax, Hl.
  exists st', (mkLogger (fresh (dom (logs st))) enabled "" None).
  split; [done|]. split; [done|].
  split; [apply not_elem_of_dom, is_fresh|].
  split.
  { exists (fresh (dom (loggers st))). split; [|done].
    apply not_elem_of_dom, is_fresh. }
  split; [done|]. split.
  { rewrite Hmax. f_equal. unfold core, padded.
    destruct (String.eqb_spec name "") as [-> | Hne]; [done|].
    change (("[" +:+ name +:+ "]" =? "")%string) with false. cbv iota.
    rewrite !len_append. change (len "[") with 1%Z. change (len "]") with 1%Z.
    change (len " ") with 1%Z. lia. }
  split; [by rewrite <- Hflag|]. split; [done|].
  destruct Hreach as [cs Hcs].
  exists (cs ++ [CallNewLogger handle name enabled]).
  rewrite (run_app cs _ declared st Hcs). cbn [run exec]. by rewrite Hnew.
Qed.

(** X20: what a log call writes.  A disabled logger leaves the state as
    it is, whatever its writer.  An enabled one makes one [Write] on its
    writer: the header, the message prefix, the message (formatted, the
    prefix is not), and a line feed unless that text ends with one; with
    [Logln], two line feeds and no third. *)
Theorem log_call_writes (st : State) (l : Logger) (now : Time)
    (msg : list any) (format : string) (args : list any)
    (ll : log_Logger) (k : sink) :
  logs st !! logger l = Some ll →
  out ll = Some k →
  let formatted text := match msgFormatter l with
                        | Some f => f text
                        | None => text
                        end in
  let header := log_formatHeader (prefix ll) (flag ll) now in
  let line text :=
    header +:+ msgPrefix l +:+ formatted text
      +:+ (if ends_with_newline (msgPrefix l +:+ formatted text)
           then "" else nl) in
  if enabled l
  then Log st l now msg = Done (written st k (line (fmt_Sprint msg))) ∧
       Logf st l now format args
       = Done (written st k (line (fmt_Sprintf format args))) ∧
       Logln st l now msg
       = Done (written st k
                 (header +:+ msgPrefix l +:+ formatted (fmt_Sprint msg)
                    +:+ nl +:+ nl))
  else Log st l now msg = Done st ∧ Logf st l now format args = Done st ∧
       Logln st l now msg = Done st.
Proof.
  intros Hl Hout formatted header line.
  unfold Log, Logf, Logln, performLog, log_Print.
  destruct (enabled l); cbn [Bool.eqb]; [|done].
  rewrite Hl, Hout. cbv zeta. fold header.
  split; [|split].
  - unfold line, formatted. by rewrite !append_assoc.
  - unfold line, formatted. by rewrite !append_assoc.
  - rewrite <- (append_assoc _ nl nl), ends_with_newline_nl, append_empty.
    unfold formatted. by rewrite !append_assoc.
Qed.

(** X21: the copies of a [Logger] share its [log.Logger]: after
    [SetOutput] through one of them every enabled copy writes to the new
    writer, with the prefix and flags as before; to a nil writer the log
    call panics. *)
Theorem SetOutput_shared (st : State) (l copy : Logger) (w : option sink)
    (now : Time) (msg : list any) (ll : log_Logger) :
  logs st !! logger l = Some ll →
  logger copy = logger l →
  enabled copy = true →
  ∃ st',
    SetOutput st l w = Done st' ∧
    logs st' = <[logger l := mkLog (prefix ll) (flag ll) w]> (logs st) ∧
    loggers st' = loggers st ∧ output st' = output st ∧
    match w with
    | Some k =>
        ∃ text, Log st' copy now msg
                = Done (written st' k
                          (log_formatHeader (prefix ll) (flag ll) now
                             +:+ text))
    | None => Log st' copy now msg = Panicked NilDereference
    end.
Proof.
  intros Hl Hcopy Hen. unfold SetOutput, on_log. rewrite Hl.
  eexists. split; [done|]. cbn [logs loggers output].
  split; [done|]. split; [done|]. split; [done|].
  unfold Log, performLog, log_Print. rewrite Hen. cbn [Bool.eqb logs].
  rewrite Hcopy, lookup_insert_eq. cbn [out log_with_out prefix flag].
  destruct w as [k|]; [|done]. eexists. by rewrite append_assoc.
Qed.

(** X22: a logger made with a nil writer and enabled panics on its first
    log call; disabled, it logs nothing and returns. *)
Theorem nil_handle_panics (st : State) (name : string) (now : Time)
    (msg : list any) :
  reachable st →
  ∃ st' l,
    NewLogger st None name true = Done (st', l) ∧
    Log st' l now msg = Panicked NilDereference ∧
    Log st' (Disable l) now msg = Done st'.
Proof.
  intros Hreach.
  destruct (NewLogger_aligned st None name true (reachable_aligned st Hreach))
    as (st' & Hnew & _ & _ & _ & _ & _ & Hl).
  eexists _, _. split; [done|].
  unfold Log, performLog, log_Print. cbn [enabled Disable Bool.eqb].
  split; [|done]. cbn [logger] in Hl |- *. by rewrite Hl.
Qed.

End WrapperProperties.

(** The example of the earlier package. *)

Lemma wrapperState_run :
  @Wrapper.run reference reference_log Wrapper.declared wrapperProgram
  = Done wrapperState.
Proof. vm_compute. reflexivity. Qed.

Lemma wrapperState_reachable :
  @Wrapper.reachable reference reference_log wrapperState.
Proof. exists wrapperProgram. apply wrapperState_run. Qed.

Lemma prefixes_stay_aligned_witness :
  ∃ ll core n,
    Wrapper.logs wrapperState !! Wrapper.logger infoLogger = Some ll ∧
    Wrapper.prefix ll = core +:+ repeat_string " " n ∧
    Wrapper.bracketed core ∧
    (core ≠ "" → (1 ≤ n)%nat) ∧
    (if Wrapper.prefixPaddingEnabled wrapperState
     then len (Wrapper.prefix ll) = Wrapper.prefixMaxPadding wrapperState
     else n = if String.eqb core "" then 0%nat else 1%nat).
Proof.
  apply (@prefixes_stay_aligned reference reference_log wrapperState
           1%positive infoLogger).
  - apply wrapperState_reachable.
  - vm_compute. reflexivity.
Defined.

Lemma SetPrefixPadding_last_wins_witness :
  ∃ st1,
    @Wrapper.SetPrefixPadding reference reference_log wrapperState false
    = Done st1 ∧
    @Wrapper.SetPrefixPadding reference reference_log st1 true
    = @Wrapper.SetPrefixPadding reference reference_log wrapperState true.
Proof.
  apply (@SetPrefixPadding_last_wins reference reference_log wrapperState
           false true).
  apply wrapperState_reachable.
Defined.

Lemma SetPrefixPadding_round_trip_witness :
  ∃ st1,
    @Wrapper.SetPrefixPadding reference reference_log wrapperState
      (negb (Wrapper.prefixPaddingEnabled wrapperState)) = Done st1 ∧
    @Wrapper.SetPrefixPadding reference reference_log st1
      (Wrapper.prefixPaddingEnabled wrapperState) = Done wrapperState.
Proof.
  apply (@SetPrefixPadding_round_trip reference reference_log wrapperState).
  apply wrapperState_reachable.
Defined.

Lemma padding_order_irrelevant_witness :
  let order := reverse (Wrapper.range (Wrapper.loggers wrapperState)) in
  @Wrapper.padding_loop reference reference_log false
    (Wrapper.prefixMaxPadding wrapperState) order (Wrapper.logs wrapperState)
  = @Wrapper.padding_loop reference reference_log false
      (Wrapper.prefixMaxPadding wrapperState)
      (Wrapper.range (Wrapper.loggers wrapperState))
      (Wrapper.logs wrapperState).
Proof.
  apply (@padding_order_irrelevant reference reference_log wrapperState false).
  - apply wrapperState_reachable.
  - apply reverse_Permutation.
Defined.

Lemma NewLogger_prefix_witness :
  let st := wrapperState in
  let core := "[CRITICAL]" in
  ∃ st' l,
    @Wrapper.NewLogger reference reference_log st None "CRITICAL" false
    = Done (st', l) ∧
    l = Wrapper.mkLogger (Wrapper.logger l) false "" None ∧
    Wrapper.logs st !! Wrapper.logger l = None ∧
    (∃ k, Wrapper.loggers st !! k = None ∧
          Wrapper.loggers st' = <[k := l]> (Wrapper.loggers st)) ∧
    Wrapper.prefixPaddingEnabled st' = Wrapper.prefixPaddingEnabled st ∧
    Wrapper.prefixMaxPadding st'
    = Z.max (Wrapper.prefixMaxPadding st) (len "CRITICAL" + 3) ∧
    Wrapper.logs st' !! Wrapper.logger l
    = Some (Wrapper.mkLog
              (Wrapper.padded (Wrapper.prefixPaddingEnabled st)
                 (Wrapper.prefixMaxPadding st') core)
              Wrapper.log_Ldate_Ltime None) ∧
    Wrapper.output st' = Wrapper.output st ∧
    @Wrapper.reachable reference reference_log st'.
Proof.
  apply (@NewLogger_prefix reference reference_log wrapperState None
           "CRITICAL" false).
  apply wrapperState_reachable.
Defined.

Lemma log_call_writes_witness :
  let st := wrapperState in
  let l := Wrapper.SetMessagePrefix infoLogger "> " in
  let now : @Time reference := spring in
  let msg : list (@any reference) := ["poller started"; nl] in
  let header := "[INFO]    04/27 15:25:47 " in
  @Wrapper.Log reference reference_log st l now msg
  = Done (Wrapper.written st os_Stdout
            (header +:+ "> " +:+ "poller started" +:+ nl +:+ "")) ∧
  @Wrapper.Logf reference reference_log st l now "%v loggers" ["2"]
  = Done (Wrapper.written st os_Stdout
            (header +:+ "> " +:+ "2 loggers" +:+ nl)) ∧
  @Wrapper.Logln reference reference_log st l now msg
  = Done (Wrapper.written st os_Stdout
            (header +:+ "> " +:+ "poller started" +:+ nl +:+ nl +:+ nl)).
Proof.
  apply (@log_call_writes reference reference_log wrapperState
           (Wrapper.SetMessagePrefix infoLogger "> ") spring
           ["poller started"; nl] "%v loggers" ["2"]
           (Wrapper.mkLog "[INFO]    " 3 (Some os_Stdout)) os_Stdout).
  - vm_compute. reflexivity.
  - reflexivity.
Defined.

Lemma SetOutput_shared_witness :
  let st := wrapperState in
  let copy := Wrapper.SetMessagePrefix infoLogger "> " in
  let now : @Time reference := spring in
  let msg : list (@any reference) := ["poller started"] in
  ∃ st',
    Wrapper.SetOutput st infoLogger (Some os_Stderr) = Done st' ∧
    Wrapper.logs st'
    = <[1%positive := Wrapper.mkLog "[INFO]    " 3 (Some os_Stderr)]>
        (Wrapper.logs st) ∧
    Wrapper.loggers st' = Wrapper.loggers st ∧
    Wrapper.output st' = Wrapper.output st ∧
    ∃ text, @Wrapper.Log reference reference_log st' copy now msg
            = Done (Wrapper.written st' os_Stderr
                      ("[INFO]    04/27 15:25:47 " +:+ text)).
Proof.
  apply (@SetOutput_shared reference reference_log wrapperState infoLogger
           (Wrapper.SetMessagePrefix infoLogger "> ") (Some os_Stderr) spring
           ["poller started"] (Wrapper.mkLog "[INFO]    " 3 (Some os_Stdout))).
  - vm_compute. reflexivity.
  - reflexivity.
  - reflexivity.
Defined.

Lemma nil_handle_panics_witness :
  let now : @Time reference := spring in
  let msg : list (@any reference) := ["poller started"] in
  ∃ st' l,
    @Wrapper.NewLogger reference reference_log wrapperState None "FILE" true
    = Done (st', l) ∧
    @Wrapper.Log reference reference_log st' l now msg
    = Panicked NilDereference ∧
    @Wrapper.Log reference reference_log st' (Wrapper.Disable l) now msg
    = Done st'.
Proof.
  apply (@nil_handle_panics reference reference_log wrapperState "FILE" spring
           ["poller started"]).
  apply wrapperState_reachable.
Defined.
